(** * Path finding between two anchor segments of an assembly graph

    A shallow embedding of [unicycler/path_finding.py] and the proofs of the
    properties its specification states.

    Conventions of the embedding:
    - a signed segment reference is a [Z], a path a [list Z];
    - Python dictionaries are [gmap]s, the set of final paths a [gset];
    - Python floats (depths, scaled scores, score fractions) are exact
      rationals [Q];
    - exceptions and the [while] loops are carried by the [outcome] monad:
      a loop takes a fuel argument and answers [OutOfFuel] when it is
      exhausted;
    - the graph class, the settings module, the helpers of [misc] and the
      alignment wrappers are not part of the file under study: the graph is
      a record of its attributes and methods, the others are the fields of
      the class [Imports]. *)

From Stdlib Require Import ZArith QArith Qround Lqa Ascii.
From stdpp Require Import gmap list sets sorting.

Close Scope Q_scope.
Local Open Scope Z_scope.

(** ** Python values and idioms *)

Abbreviation path := (list Z).
Abbreviation dna := (list ascii).

(** [l.count(x)] *)
Definition py_count (x : Z) (l : list Z) : Z :=
  Z.of_nat (length (filter (λ y, y = x) l)).

(** Index of a slice bound in a sequence of length [n]: negative bounds count
    from the end, and every bound is clamped to [0, n]. *)
Definition slice_index (n : nat) (i : Z) : nat :=
  if decide (i < 0) then Z.to_nat (Z.max 0 (i + Z.of_nat n))
  else Z.to_nat (Z.min i (Z.of_nat n)).

(** [l[lo:hi]], an absent bound being [None]. *)
Definition py_slice {A} (lo hi : option Z) (l : list A) : list A :=
  let n := length l in
  let a := from_option (slice_index n) 0%nat lo in
  let b := from_option (slice_index n) n hi in
  take (b - a) (drop a l).

(** [min(...)] of a sequence of integers; [None] on the empty sequence, where
    Python raises [ValueError]. *)
Definition py_min (l : list Z) : option Z :=
  match l with
  | [] => None
  | x :: l' => Some (foldl Z.min x l')
  end.

(** [sorted(l, key=...)]: a stable sort, written as an insertion sort in which
    an element is placed before the first one that does not rank strictly
    before it. [le x y] reads "the key of x is at most the key of y". *)
Section Sorted.
Context {A : Type} (le : A → A → bool).

Fixpoint py_insert (x : A) (l : list A) : list A :=
  match l with
  | [] => [x]
  | y :: l' => if le x y then x :: l else y :: py_insert x l'
  end.

Definition py_sorted (l : list A) : list A := foldr py_insert [] l.
End Sorted.

(** [int(round(x))]: rounding to the nearest integer, ties to the even one. *)
Definition py_round (x : Q) : Z :=
  let f := Qfloor x in
  let r := (x - inject_Z f)%Q in
  match (r ?= 1 # 2)%Q with
  | Lt => f
  | Gt => f + 1
  | Eq => if Z.even f then f else f + 1
  end.

#[global] Instance Qle_decision (x y : Q) : Decision (x <= y)%Q.
Proof.
  destruct (Qle_bool x y) eqn:E.
  - left. by apply Qle_bool_iff.
  - right. intros H. apply Qle_bool_iff in H. congruence.
Defined.

#[global] Instance Qlt_decision (x y : Q) : Decision (x < y)%Q.
Proof.
  destruct (Qle_bool y x) eqn:E.
  - right. apply Qle_bool_iff in E. by apply Qle_not_lt.
  - left. apply Qnot_le_lt. intros H. apply Qle_bool_iff in H. congruence.
Defined.

(** ** Exceptions and loops *)

Inductive exn := TooManyPaths | KeyError | IndexError | ValueError.

Inductive outcome (A : Type) : Type :=
  | Ret (a : A)
  | Raise (e : exn)
  | OutOfFuel.
Arguments Ret {A} a.
Arguments Raise {A} e.
Arguments OutOfFuel {A}.

#[global] Instance outcome_ret : MRet outcome := @Ret.
#[global] Instance outcome_bind : MBind outcome := λ A B f m,
  match m with
  | Ret a => f a
  | Raise e => Raise e
  | OutOfFuel => OutOfFuel
  end.

(** A [for] loop whose body may raise. *)
Fixpoint for_each {S B} (body : S → B → outcome S) (s : S) (l : list B)
  : outcome S :=
  match l with
  | [] => Ret s
  | b :: l' => s' ← body s b; for_each body s' l'
  end.

(** [d[k]] and [l[-1]] raise on a missing key and on an empty list. *)
Definition getitem {K V} `{Countable K} (d : gmap K V) (k : K) : outcome V :=
  match d !! k with
  | Some v => Ret v
  | None => Raise KeyError
  end.

Definition last_item {A} (l : list A) : outcome A :=
  match last l with
  | Some x => Ret x
  | None => Raise IndexError
  end.

Definition min_item (l : list Z) : outcome Z :=
  match py_min l with
  | Some x => Ret x
  | None => Raise ValueError
  end.

(** ** The graph, as the path finder sees it *)

Record Segment := {
  depth : Q;
  get_length_no_overlap : Z → Z
}.

Record Graph := {
  forward_links : gmap Z (list Z);
  segments : gmap Z Segment;
  overlap : Z;
  get_path_length : path → Z;
  get_path_sequence : path → dna;
  seq_from_signed_seg_num : Z → dna;
  max_path_segment_count : Z → Q → Z
}.

Record Settings := {
  MIN_RELATIVE_PATH_LENGTH : Q;
  MAX_RELATIVE_PATH_LENGTH : Q;
  ALL_PATH_SEARCH_MAX_WORKING_PATHS : Z;
  ALL_PATH_SEARCH_MAX_FINAL_PATHS : Z;
  PROGRESSIVE_PATH_SEARCH_MAX_WORKING_PATHS : Z;
  PROGRESSIVE_PATH_SEARCH_SCORE_FRACTION : Q
}.

(** What an alignment wrapper answers, once its comma-separated text is
    split: field 5 is the end position in the read, field 6 the raw score and
    field 7 the scaled score. *)
Record Alignment := {
  seq_end_pos : Z;
  raw_score : Z;
  scaled_score : Q
}.

(** [reverse_path]: reverses the order and the sign of a path. *)
Definition reverse_path (p : path) : path := Z.opp <$> reverse p.

(** [path.count(next_seg) + path.count(-next_seg)] *)
Definition count_so_far (next_seg : Z) (p : path) : Z :=
  py_count next_seg p + py_count (- next_seg) p.

(** A candidate score record, the tuple
    [(path, raw_score, length_discrepancy, scaled_score)]. *)
Record Candidate := MkCandidate {
  cand_path : path;
  cand_raw : Q;
  cand_disc : Z;
  cand_scaled : Q
}.

(** The order of the keys [(-x[1], x[2], -x[3])]: tuples compare
    component by component. *)
Definition rank_le (x y : Candidate) : bool :=
  match (- cand_raw x ?= - cand_raw y)%Q with
  | Lt => true
  | Gt => false
  | Eq =>
    match cand_disc x ?= cand_disc y with
    | Lt => true
    | Gt => false
    | Eq => bool_decide (- cand_scaled x <= - cand_scaled y)%Q
    end
  end.

(** What the module imports: the settings, the helpers of [misc]
    ([weighted_average], [reverse_complement], [get_num_agreement]) and the
    alignment wrappers, for which [None] stands for the empty answer of a
    failed alignment. *)
Class Imports := {
  settings : Settings;
  ScoringScheme : Type;
  weighted_average : Q → Q → Z → Z → Q;
  reverse_complement : dna → dna;
  get_num_agreement : Z → Z → Q;
  fully_global_alignment :
    dna → dna → ScoringScheme → bool → Z → option Alignment;
  path_alignment : dna → dna → ScoringScheme → bool → Z → option Alignment
}.

Section PathFinding.
Context `{Imports}.

(** The depth both searches measure repetition against. *)
Definition start_end_depth (graph : Graph) (start end_ : Z) : outcome Q :=
  start_seg ← getitem (segments graph) (Z.abs start);
  end_seg ← getitem (segments graph) (Z.abs end_);
  mret (weighted_average (depth start_seg) (depth end_seg)
          (get_length_no_overlap start_seg (overlap graph))
          (get_length_no_overlap end_seg (overlap graph))).

(** The successors of a path's last segment that the repetition cap still
    admits: the body of [for next_seg in graph.forward_links[last_seg]]
    guarded by [count_so_far < max_allowed_count]. *)
Definition allowed_next (graph : Graph) (sed : Q) (p : path)
    (nexts : list Z) : list Z :=
  filter (λ next_seg,
    count_so_far next_seg p < max_path_segment_count graph next_seg sed) nexts.

(** *** [all_paths] *)

(** One turn of [for working_path in working_paths]; the state is
    [(new_working_paths, final_paths)]. *)
Definition all_paths_visit (graph : Graph) (end_ min_length max_length : Z)
    (sed : Q) (st : list path * list path) (working_path : path)
  : outcome (list path * list path) :=
  let '(new_working_paths, final_paths) := st in
  last_seg ← last_item working_path;
  if decide (last_seg = end_) then
    let potential_result := py_slice None (Some (-1)) working_path in
    if decide (min_length ≤ get_path_length graph potential_result) then
      let final_paths := final_paths ++ [potential_result] in
      if decide (ALL_PATH_SEARCH_MAX_FINAL_PATHS settings
                   < Z.of_nat (length final_paths))
      then Raise TooManyPaths
      else mret (new_working_paths, final_paths)
    else mret st
  else
    if decide (get_path_length graph working_path ≤ max_length) then
      match forward_links graph !! last_seg with
      | Some nexts =>
          mret (new_working_paths ++
                  ((λ next_seg, working_path ++ [next_seg])
                     <$> allowed_next graph sed working_path nexts),
                final_paths)
      | None => mret st
      end
    else mret st.

Fixpoint all_paths_loop (fuel : nat) (graph : Graph)
    (end_ min_length max_length : Z) (sed : Q)
    (working_paths final_paths : list path) : outcome (list path) :=
  match working_paths with
  | [] => mret final_paths
  | _ =>
    match fuel with
    | O => OutOfFuel
    | S fuel =>
      st ← for_each (all_paths_visit graph end_ min_length max_length sed)
             ([], final_paths) working_paths;
      if decide (ALL_PATH_SEARCH_MAX_WORKING_PATHS settings
                   < Z.of_nat (length working_paths))
      then Raise TooManyPaths
      else all_paths_loop fuel graph end_ min_length max_length sed
             st.1 st.2
    end
  end.

Definition all_paths (fuel : nat) (graph : Graph)
    (start end_ min_length target_length max_length : Z)
  : outcome (list path) :=
  match forward_links graph !! start with
  | None => mret []
  | Some succs =>
    sed ← start_end_depth graph start end_;
    all_paths_loop fuel graph end_ min_length max_length sed
      ((λ x, [x]) <$> succs) []
  end.

(** *** [build_path_dictionary] *)

(** [path_dict[r_path[0]].append(r_path)] on a [defaultdict(list)] *)
Definition dict_append (path_dict : gmap Z (list path)) (p : path)
  : outcome (gmap Z (list path)) :=
  let r_path := reverse_path p in
  match r_path with
  | [] => Raise IndexError
  | k :: _ => mret (<[k := default [] (path_dict !! k) ++ [r_path]]> path_dict)
  end.

Definition build_path_dictionary (path_list : list path)
  : outcome (gmap Z (list path)) :=
  for_each dict_append ∅ path_list.

(** *** [cull_paths] *)

(** The loop over [i] that collects the segments every path shares at its
    start; [n] counts the turns that remain of [range(smallest_seg_count)]. *)
Fixpoint common_start_from (paths : list path) (i n : nat) : path :=
  match n with
  | O => []
  | S n =>
    match paths !! 0%nat ≫= (.!! i) with
    | None => []
    | Some potential_common_seg =>
      if forallb (λ p : path,
           bool_decide (p !! i = Some potential_common_seg)) paths
      then potential_common_seg :: common_start_from paths (S i) n
      else []
    end
  end.

(** [sorted(scored_paths, key=lambda x: x[1], reverse=True)] *)
Definition by_score_desc (x y : path * Q) : bool :=
  bool_decide (y.2 <= x.2)%Q.

(** The [while True] that tightens the score fraction. *)
Fixpoint cull_threshold_loop (fuel : nat) (best_score : Q)
    (scored_paths : list (path * Q)) (score_fraction_threshold : Q)
  : outcome (list (path * Q)) :=
  match fuel with
  | O => OutOfFuel
  | S fuel =>
    let surviving_paths :=
      filter (λ scored_path : path * Q,
        (best_score * score_fraction_threshold <= scored_path.2)%Q)
        scored_paths in
    if decide (PROGRESSIVE_PATH_SEARCH_MAX_WORKING_PATHS settings `div` 2
                 < Z.of_nat (length surviving_paths))
    then cull_threshold_loop fuel best_score scored_paths
           (1 - (1 - score_fraction_threshold) / 2)%Q
    else mret surviving_paths
  end.

(** The scoring of one path in [cull_paths]: the path loses its first
    segment and is kept, with its scaled score, when the alignment
    answers. *)
Definition cull_score (graph : Graph) (scoring_scheme : ScoringScheme)
    (seq_after_common_path : dna) (path_align_start : nat)
    (shortest_len : Z) (p : path) : option (path * Q) :=
  let p := py_slice (Some 1) None p in
  let path_seq_after_common_path :=
    py_slice (Some (Z.of_nat path_align_start)) (Some shortest_len)
      (get_path_sequence graph p) in
  match path_alignment path_seq_after_common_path seq_after_common_path
          scoring_scheme true 500 with
  | Some alignment_result => Some (p, scaled_score alignment_result)
  | None => None
  end.

(** The first part of [cull_paths]: the paths that align, without their
    first segment, with their scaled scores, best first. The answer of the
    alignment of the common start is split without a test: an empty answer
    has no field 5, which raises [IndexError]. *)
Definition cull_scored_paths (graph : Graph) (paths : list path)
    (sequence : dna) (scoring_scheme : ScoringScheme)
  : outcome (list (path * Q)) :=
  smallest_seg_count ← min_item ((λ x : path, Z.of_nat (length x)) <$> paths);
  let common_start :=
    common_start_from paths 0 (Z.to_nat smallest_seg_count) in
  let common_start := py_slice (Some 1) None common_start in
  let common_path_seq :=
    py_slice None (Some (-100)) (get_path_sequence graph common_start) in
  let path_align_start := length common_path_seq in
  seq_align_start ←
    match common_path_seq with
    | [] => mret 0
    | _ =>
      match path_alignment common_path_seq sequence scoring_scheme
              true 1000 with
      | Some alignment_result => mret (seq_end_pos alignment_result)
      | None => Raise IndexError
      end
    end;
  shortest_len ← min_item (get_path_length graph <$> paths);
  let seq_after_common_path := py_slice (Some seq_align_start) None sequence in
  let scored_paths :=
    omap (cull_score graph scoring_scheme seq_after_common_path
            path_align_start shortest_len) paths in
  mret (py_sorted by_score_desc scored_paths).

Definition cull_paths (fuel : nat) (graph : Graph) (paths : list path)
    (sequence : dna) (scoring_scheme : ScoringScheme)
    (expected_scaled_score : Q) : outcome (list path) :=
  let path_count_before_cull := length paths in
  scored_paths ← cull_scored_paths graph paths sequence scoring_scheme;
  match scored_paths with
  | [] => mret []
  | best :: _ =>
    let best_score := best.2 in
    if decide (best_score < 0.9 * expected_scaled_score)%Q then mret []
    else
      surviving_paths ←
        cull_threshold_loop fuel best_score scored_paths
          (PROGRESSIVE_PATH_SEARCH_SCORE_FRACTION settings);
      let paths := fst <$> surviving_paths in
      let path_count_after_cull := length paths in
      if decide (path_count_after_cull = path_count_before_cull)
      then mret (take (length paths / 2)%nat paths)
      else mret paths
  end.

(** *** [advance_paths] *)

(** The body of [for next_seg in downstream_segments] for a segment the cap
    admits; the state is [(new_working_paths, final_paths)]. *)
Definition advance_next (graph : Graph)
    (opposite_paths_dict : gmap Z (list path)) (flip_new_final_paths : bool)
    (max_length : Z) (p : path) (st : list path * gset path) (next_seg : Z)
  : list path * gset path :=
  let '(new_working_paths, final_paths) := st in
  let final_paths :=
    match opposite_paths_dict !! next_seg with
    | Some final_parts =>
      foldl (λ (fs : gset path) final_part,
               let final_path := p ++ final_part in
               let final_path :=
                 if flip_new_final_paths then reverse_path final_path
                 else final_path in
               {[ final_path ]} ∪ fs)
            final_paths final_parts
    | None => final_paths
    end in
  if decide (get_path_length graph (py_slice (Some 1) None p ++ [next_seg])
               ≤ max_length)
  then (new_working_paths ++ [p ++ [next_seg]], final_paths)
  else (new_working_paths, final_paths).

(** One turn of [for path in working_paths]. *)
Definition advance_visit (graph : Graph)
    (opposite_paths_dict : gmap Z (list path)) (flip_new_final_paths : bool)
    (sed : Q) (max_length shortest_path_len : Z)
    (st : list path * gset path) (p : path)
  : outcome (list path * gset path) :=
  let path_len := get_path_length graph p in
  if decide (shortest_path_len < path_len) then mret (st.1 ++ [p], st.2)
  else
    last_seg ← last_item p;
    match forward_links graph !! last_seg with
    | Some downstream_segments =>
      mret (foldl (advance_next graph opposite_paths_dict
                     flip_new_final_paths max_length p)
              st (allowed_next graph sed p downstream_segments))
    | None => mret st
    end.

(** The [while True] of [advance_paths]. *)
Fixpoint advance_loop (fuel : nat) (graph : Graph)
    (opposite_paths_dict : gmap Z (list path)) (flip_new_final_paths : bool)
    (sed : Q) (max_length : Z)
    (working_paths : list path) (final_paths : gset path)
  : outcome (list path * gset path) :=
  let n := Z.of_nat (length working_paths) in
  if decide (0 < n ∧
             n ≤ PROGRESSIVE_PATH_SEARCH_MAX_WORKING_PATHS settings) then
    match fuel with
    | O => OutOfFuel
    | S fuel =>
      shortest_path_len ← min_item (get_path_length graph <$> working_paths);
      st ← for_each (advance_visit graph opposite_paths_dict
                       flip_new_final_paths sed max_length shortest_path_len)
             ([], final_paths) working_paths;
      advance_loop fuel graph opposite_paths_dict flip_new_final_paths sed
        max_length st.1 st.2
    end
  else mret (working_paths, final_paths).

(** [advance_paths] returns the working paths; the set of final paths, which
    the Python code updates in place, is returned with them. *)
Definition advance_paths (fuel : nat) (working_paths : list path)
    (opposite_paths_dict : gmap Z (list path)) (shortest_opposite_path : Z)
    (final_paths : gset path) (flip_new_final_paths : bool) (sequence : dna)
    (scoring_scheme : ScoringScheme) (expected_scaled_score : Q)
    (graph : Graph) (sed : Q) (total_max_length : Z)
  : outcome (list path * gset path) :=
  let max_length := total_max_length - shortest_opposite_path in
  st ← advance_loop fuel graph opposite_paths_dict flip_new_final_paths sed
         max_length working_paths final_paths;
  if decide (PROGRESSIVE_PATH_SEARCH_MAX_WORKING_PATHS settings
               < Z.of_nat (length st.1))
  then
    working_paths ← cull_paths fuel graph st.1 sequence scoring_scheme
                      expected_scaled_score;
    mret (working_paths, st.2)
  else mret st.

(** *** [progressive_path_find] *)

(** [min(graph.get_path_length(x[1:]) for x in working_paths)] *)
Definition shortest_path (graph : Graph) (working_paths : list path)
  : outcome Z :=
  min_item ((λ x, get_path_length graph (py_slice (Some 1) None x))
              <$> working_paths).

(** The [while True] of [progressive_path_find]; it answers the set of final
    paths. [rounds] bounds its turns, [fuel] the loops it calls. *)
Fixpoint progressive_loop (rounds fuel : nat) (graph : Graph)
    (max_length : Z) (sequence reverse_sequence : dna)
    (scoring_scheme : ScoringScheme) (expected_scaled_score : Q) (sed : Q)
    (forward_working_paths reverse_working_paths : list path)
    (final_paths : gset path) : outcome (gset path) :=
  match rounds with
  | O => OutOfFuel
  | S rounds =>
    shortest_reverse_path ← shortest_path graph reverse_working_paths;
    reverse_paths_dict ← build_path_dictionary reverse_working_paths;
    fw ← advance_paths fuel forward_working_paths reverse_paths_dict
           shortest_reverse_path final_paths false sequence scoring_scheme
           expected_scaled_score graph sed max_length;
    let '(forward_working_paths, final_paths) := fw in
    match forward_working_paths with
    | [] => mret final_paths
    | _ =>
      shortest_forward_path ← shortest_path graph forward_working_paths;
      forward_paths_dict ← build_path_dictionary forward_working_paths;
      rv ← advance_paths fuel reverse_working_paths forward_paths_dict
             shortest_forward_path final_paths true reverse_sequence
             scoring_scheme expected_scaled_score graph sed max_length;
      let '(reverse_working_paths, final_paths) := rv in
      match reverse_working_paths with
      | [] => mret final_paths
      | _ =>
        progressive_loop rounds fuel graph max_length sequence
          reverse_sequence scoring_scheme expected_scaled_score sed
          forward_working_paths reverse_working_paths final_paths
      end
    end
  end.

Definition progressive_path_find (fuel : nat) (graph : Graph)
    (start end_ min_length max_length : Z) (sequence : dna)
    (scoring_scheme : ScoringScheme) (expected_scaled_score : Q)
  : outcome (list path) :=
  let reverse_sequence := reverse_complement sequence in
  sed ← start_end_depth graph start end_;
  final_paths ←
    progressive_loop fuel fuel graph max_length sequence reverse_sequence
      scoring_scheme expected_scaled_score sed [[start]] [[- end_]] ∅;
  let final_paths := py_slice (Some 1) (Some (-1)) <$> elements final_paths in
  mret (filter (λ x, min_length ≤ get_path_length graph x
                     ∧ get_path_length graph x ≤ max_length) final_paths).

(** *** [get_best_paths_for_seq] *)

(** The exhaustive search, and the progressive one when it gives up; the
    flag is [progressive_path_search]. *)
Definition find_paths (fuel : nat) (graph : Graph)
    (start_seg end_seg min_length target_length max_length : Z)
    (sequence : dna) (scoring_scheme : ScoringScheme)
    (expected_scaled_score : Q) : outcome (list path * bool) :=
  match all_paths fuel graph start_seg end_seg min_length target_length
          max_length with
  | Ret paths => mret (paths, false)
  | Raise TooManyPaths =>
    paths ← progressive_path_find fuel graph start_seg end_seg min_length
              max_length sequence scoring_scheme expected_scaled_score;
    mret (paths, true)
  | Raise e => Raise e
  | OutOfFuel => OutOfFuel
  end.

(** [sorted(paths, key=lambda x: abs(target_length - graph.get_path_length(x)))] *)
Definition by_length_discrepancy (graph : Graph) (target_length : Z)
    (x y : path) : bool :=
  bool_decide (Z.abs (target_length - get_path_length graph x)
               ≤ Z.abs (target_length - get_path_length graph y)).

(** The body of [for path in paths]: [None] is the [continue] taken when the
    alignment fails. *)
Definition score_path (graph : Graph) (target_length : Z) (sequence : dna)
    (scoring_scheme : ScoringScheme) (p : path) : option Candidate :=
  let path_len := get_path_length graph p in
  let length_discrepancy := Z.abs (path_len - target_length) in
  match sequence with
  | _ :: _ =>
    let path_seq := get_path_sequence graph p in
    match fully_global_alignment sequence path_seq scoring_scheme
            true 1000 with
    | None => None
    | Some alignment_result =>
      Some (MkCandidate p (inject_Z (raw_score alignment_result))
              length_discrepancy (scaled_score alignment_result))
    end
  | [] =>
    Some (MkCandidate p (get_num_agreement path_len target_length * 100)%Q
            length_discrepancy 100%Q)
  end.

(** The list [paths_and_scores] as the scoring loop leaves it. *)
Definition scored_candidates (graph : Graph) (target_length : Z)
    (sequence : dna) (scoring_scheme : ScoringScheme) (paths : list path)
  : list Candidate :=
  omap (score_path graph target_length sequence scoring_scheme)
    (py_sorted (by_length_discrepancy graph target_length) paths).

(** The final sort and the filter on the scaled score. *)
Definition rank_and_retain (paths_and_scores : list Candidate)
  : list Candidate :=
  let paths_and_scores := py_sorted rank_le paths_and_scores in
  match paths_and_scores with
  | [] => paths_and_scores
  | best :: _ =>
    let best_scaled_score := cand_scaled best in
    let min_scaled_score := (best_scaled_score * 0.95)%Q in
    filter (λ x, (min_scaled_score <= cand_scaled x)%Q) paths_and_scores
  end.

(** The consensus with the overlaps of the two anchors added. *)
Definition extend_sequence (graph : Graph) (start_seg end_seg : Z)
    (sequence : dna) : dna :=
  match sequence with
  | [] => sequence
  | _ =>
    py_slice (Some (- overlap graph)) None
      (seq_from_signed_seg_num graph start_seg)
    ++ sequence
    ++ py_slice None (Some (overlap graph))
         (seq_from_signed_seg_num graph end_seg)
  end.

Definition get_best_paths_for_seq (fuel : nat) (graph : Graph)
    (start_seg end_seg target_length : Z) (sequence : dna)
    (scoring_scheme : ScoringScheme) (expected_scaled_score : Q)
  : outcome (list Candidate * bool) :=
  let min_length :=
    py_round (inject_Z target_length * MIN_RELATIVE_PATH_LENGTH settings) in
  let max_length :=
    py_round (inject_Z target_length * MAX_RELATIVE_PATH_LENGTH settings) in
  let sequence := extend_sequence graph start_seg end_seg sequence in
  found ← find_paths fuel graph start_seg end_seg min_length target_length
            max_length sequence scoring_scheme expected_scaled_score;
  let '(paths, progressive_path_search) := found in
  let paths_and_scores :=
    scored_candidates graph target_length sequence scoring_scheme paths in
  mret (rank_and_retain paths_and_scores, progressive_path_search).

(** The paths that [get_best_paths_for_seq] scores, with the flag that tells
    which search found them. *)
Definition found_paths (fuel : nat) (graph : Graph)
    (start_seg end_seg target_length : Z) (sequence : dna)
    (scoring_scheme : ScoringScheme) (expected_scaled_score : Q)
  : outcome (list path * bool) :=
  find_paths fuel graph start_seg end_seg
    (py_round (inject_Z target_length * MIN_RELATIVE_PATH_LENGTH settings))
    target_length
    (py_round (inject_Z target_length * MAX_RELATIVE_PATH_LENGTH settings))
    (extend_sequence graph start_seg end_seg sequence)
    scoring_scheme expected_scaled_score.

End PathFinding.

(** The order of the final ranking in the words of the specification: raw
    score descending, then length discrepancy ascending, then scaled score
    descending. *)
Definition ranks_no_later (x y : Candidate) : Prop :=
  (cand_raw y < cand_raw x)%Q
  ∨ (cand_raw x == cand_raw y)%Q
    ∧ (cand_disc x < cand_disc y
       ∨ cand_disc x = cand_disc y ∧ (cand_scaled y <= cand_scaled x)%Q).


(** Modelled from the spec: [misc.get_num_agreement] is not in the file
    under study; the specification describes it as a continuous measure of
    how close the path length is to the target, which the caller scales to
    0-100. The ratio of the smaller length to the larger one is such a
    measure: 1 when the two lengths are equal, smaller as they move apart, 0
    when a length is not positive. *)
Definition length_agreement (num_1 num_2 : Z) : Q :=
  if decide (num_1 = num_2) then 1%Q
  else if decide (0 < num_1 ∧ 0 < num_2)
       then (Z.min num_1 num_2 # Z.to_pos (Z.max num_1 num_2))%Q
       else 0%Q.

(** Every entry of a frontier dictionary is a reversed working path, filed
    under its first segment; [W] is a property of working paths. *)
Definition dict_ok (W : path → Prop) (d : gmap Z (list path)) : Prop :=
  ∀ k parts part, d !! k = Some parts → part ∈ parts →
    ∃ q, W q ∧ part = reverse_path q ∧ head part = Some k.

(** A frontier whose working paths satisfy [W] and whose final paths satisfy
    [F]. *)
Definition frontier_ok (W F : path → Prop) (st : list path * gset path)
  : Prop :=
  Forall W st.1 ∧ set_Forall F st.2.

(** ** Concrete graphs

    The graphs, settings and alignment answers on which the properties below
    are exercised. Segment lengths and sequences come from tables; the length
    of a path is the sum of the lengths of its segments (the overlap is 0). *)

Definition table_path_length (seg_length : Z → Z) (p : path) : Z :=
  foldr (λ seg acc, seg_length (Z.abs seg) + acc) 0 p.

Definition table_path_sequence (seg_seq : Z → dna) (p : path) : dna :=
  mjoin (seg_seq <$> p).

Definition unit_segment : Segment :=
  {| depth := 1%Q; get_length_no_overlap := λ _, 1 |}.

Definition mean_depth (d1 d2 : Q) (w1 w2 : Z) : Q :=
  ((d1 * inject_Z w1 + d2 * inject_Z w2) / inject_Z (w1 + w2))%Q.

Definition base_A : ascii := "A"%char.
Definition base_C : ascii := "C"%char.
Definition base_G : ascii := "G"%char.

(** Two paths, [3] and [4], lead from segment 1 to segment 2. *)
Definition two_path_graph : Graph := {|
  forward_links := list_to_map [(1, [3; 4]); (3, [2]); (4, [2])];
  segments := list_to_map [(1, unit_segment); (2, unit_segment);
                           (3, unit_segment); (4, unit_segment)];
  overlap := 0;
  get_path_length := table_path_length (λ _, 10);
  get_path_sequence :=
    table_path_sequence (λ seg, if decide (seg = 3) then [base_A] else [base_C]);
  seq_from_signed_seg_num := λ _, [base_G];
  max_path_segment_count := λ _ _, 2
|}.

Definition small_settings : Settings := {|
  MIN_RELATIVE_PATH_LENGTH := 0.8%Q;
  MAX_RELATIVE_PATH_LENGTH := 1.3%Q;
  ALL_PATH_SEARCH_MAX_WORKING_PATHS := 10000;
  ALL_PATH_SEARCH_MAX_FINAL_PATHS := 250;
  PROGRESSIVE_PATH_SEARCH_MAX_WORKING_PATHS := 2;
  PROGRESSIVE_PATH_SEARCH_SCORE_FRACTION := 0.99%Q
|}.

(** An alignment oracle that answers from the first base of the path: a path
    through segment 3 aligns with the higher raw score and the lower scaled
    score. *)
Definition two_path_alignment (sequence path_seq : dna) (scheme : unit)
    (banded : bool) (band : Z) : option Alignment :=
  match path_seq with
  | [] => None
  | b :: _ =>
    if decide (b = base_A)
    then Some {| seq_end_pos := 1; raw_score := 100; scaled_score := 50%Q |}
    else Some {| seq_end_pos := 1; raw_score := 90; scaled_score := 100%Q |}
  end.

Definition two_path_imports : Imports := {|
  settings := small_settings;
  ScoringScheme := unit;
  weighted_average := mean_depth;
  reverse_complement := reverse;
  get_num_agreement := length_agreement;
  fully_global_alignment := two_path_alignment;
  path_alignment := two_path_alignment
|}.


(** ** What the claims speak of *)

(** [b] is in the adjacency list of [a]. *)
Definition linked (graph : Graph) (a b : Z) : Prop :=
  match forward_links graph !! a with
  | Some nexts => b ∈ nexts
  | None => False
  end.

(** The adjacency map is closed under strand reversal: when [b] follows [a],
    the negation of [a] follows the negation of [b]. *)
Definition strand_symmetric (graph : Graph) : Prop :=
  ∀ a b, linked graph a b → linked graph (- b) (- a).

#[global] Instance linked_dec (graph : Graph) (a b : Z) :
  Decision (linked graph a b).
Proof. unfold linked. destruct (forward_links graph !! a); apply _. Defined.

(** The same, as a check of every entry of the map. *)
Definition strand_symmetric_check (graph : Graph) : bool :=
  forallb (λ entry : Z * list Z,
             forallb (λ b, bool_decide (linked graph (- b) (- entry.1)))
               entry.2)
    (map_to_list (forward_links graph)).

(** Every pair of consecutive references of the path is an edge. *)
Definition is_walk (graph : Graph) (p : path) : Prop :=
  ∀ i a b, p !! i = Some a → p !! S i = Some b → linked graph a b.

(** The occurrences of a segment in a path, a reference and its negation
    counting as the same segment. *)
Definition seg_count (x : Z) (p : path) : nat :=
  length (filter (λ y, Z.abs y = Z.abs x) p).

(** A final path of [all_paths], for a property [P] of its working paths: it
    reaches the minimal length and, with the end anchor added, it was a
    working path. *)
Definition final_ok (graph : Graph) (end_ min_length : Z) (P : path → Prop)
    (q : path) : Prop :=
  min_length ≤ get_path_length graph q ∧ P (q ++ [end_]).

(** The end anchor directly follows the start anchor. *)
Definition direct_graph : Graph := {|
  forward_links := list_to_map [(1, [2])];
  segments := list_to_map [(1, unit_segment); (2, unit_segment)];
  overlap := 0;
  get_path_length := table_path_length (λ _, 10);
  get_path_sequence := table_path_sequence (λ _, [base_A]);
  seq_from_signed_seg_num := λ _, [base_G];
  max_path_segment_count := λ _ _, 2
|}.

(** Segment 3 leads back to the start anchor 1 and on to the end anchor 2. *)
Definition loop_graph : Graph := {|
  forward_links := list_to_map [(1, [3]); (3, [1; 2])];
  segments := list_to_map [(1, unit_segment); (2, unit_segment);
                           (3, unit_segment)];
  overlap := 0;
  get_path_length := table_path_length (λ _, 10);
  get_path_sequence := table_path_sequence (λ _, [base_A]);
  seq_from_signed_seg_num := λ _, [base_G];
  max_path_segment_count := λ _ _, 2
|}.

(** A chain 1, 6, 7 that forks to 3, 4 and the end anchor 2; segment 3 leads
    back to 7. Every link has its mirror on the other strand, and the cap of
    every segment is 1. *)
Definition junction_graph : Graph := {|
  forward_links :=
    list_to_map [(1, [6]); (6, [7]); (7, [3; 4; 2]); (3, [7]);
                 (-6, [-1]); (-7, [-6; -3]); (-3, [-7]); (-4, [-7]);
                 (-2, [-7])];
  segments := list_to_map [(1, unit_segment); (2, unit_segment)];
  overlap := 0;
  get_path_length := table_path_length (λ _, 10);
  get_path_sequence :=
    table_path_sequence (λ seg, if decide (seg = 3) then [base_A]
                                else [base_G]);
  seq_from_signed_seg_num := λ _, [base_G];
  max_path_segment_count := λ _ _, 1
|}.

(** An alignment oracle that prefers the paths through segment 3, whose
    sequence is the only one with the base A. *)
Definition junction_alignment (path_seq sequence : dna) (scheme : unit)
    (banded : bool) (band : Z) : option Alignment :=
  if decide (base_A ∈ path_seq)
  then Some {| seq_end_pos := 1; raw_score := 100; scaled_score := 100%Q |}
  else Some {| seq_end_pos := 1; raw_score := 50; scaled_score := 50%Q |}.

Definition junction_imports : Imports := {|
  settings := small_settings;
  ScoringScheme := unit;
  weighted_average := mean_depth;
  reverse_complement := reverse;
  get_num_agreement := length_agreement;
  fully_global_alignment := junction_alignment;
  path_alignment := junction_alignment
|}.

(** The same chain forking to 4, 5 and the end anchor 2: no path goes through
    a segment with the base A, so all paths align equally well. *)
Definition tie_graph : Graph := {|
  forward_links :=
    list_to_map [(1, [6]); (6, [7]); (7, [4; 5; 2]);
                 (-6, [-1]); (-7, [-6]); (-4, [-7]); (-5, [-7]); (-2, [-7])];
  segments := list_to_map [(1, unit_segment); (2, unit_segment)];
  overlap := 0;
  get_path_length := table_path_length (λ _, 10);
  get_path_sequence := table_path_sequence (λ _, [base_G]);
  seq_from_signed_seg_num := λ _, [base_G];
  max_path_segment_count := λ _ _, 1
|}.

(** Settings with ceilings of one working path and one final path for the
    exhaustive search. *)
Definition tight_settings : Settings := {|
  MIN_RELATIVE_PATH_LENGTH := 0.8%Q;
  MAX_RELATIVE_PATH_LENGTH := 1.3%Q;
  ALL_PATH_SEARCH_MAX_WORKING_PATHS := 1;
  ALL_PATH_SEARCH_MAX_FINAL_PATHS := 1;
  PROGRESSIVE_PATH_SEARCH_MAX_WORKING_PATHS := 2;
  PROGRESSIVE_PATH_SEARCH_SCORE_FRACTION := 0.99%Q
|}.

Definition tight_imports : Imports := {|
  settings := tight_settings;
  ScoringScheme := unit;
  weighted_average := mean_depth;
  reverse_complement := reverse;
  get_num_agreement := length_agreement;
  fully_global_alignment := junction_alignment;
  path_alignment := junction_alignment
|}.

(** An alignment that never answers. *)
Definition failed_alignment (seq_1 seq_2 : dna) (scheme : unit)
    (banded : bool) (band : Z) : option Alignment := None.

Definition failing_imports : Imports := {|
  settings := small_settings;
  ScoringScheme := unit;
  weighted_average := mean_depth;
  reverse_complement := reverse;
  get_num_agreement := length_agreement;
  fully_global_alignment := failed_alignment;
  path_alignment := failed_alignment
|}.

(** The score fraction threshold of [cull_paths] after [n] turns of its loop,
    each of which halves the gap to 1. *)
Fixpoint tightened (n : nat) (t : Q) : Q :=
  match n with
  | O => t
  | S n => tightened n (1 - (1 - t) / 2)%Q
  end.

(** * Properties *)

(** ** The stable sort *)

Section SortedFacts.
Context {A : Type} (le : A → A → bool).

Lemma py_insert_perm (x : A) (l : list A) : py_insert le x l ≡ₚ x :: l.
Proof.
  induction l as [|y l IH]; simpl; [done|].
  destruct (le x y); [done|].
  rewrite IH. apply Permutation_swap.
Qed.

Lemma py_sorted_perm (l : list A) : py_sorted le l ≡ₚ l.
Proof.
  induction l as [|x l IH]; simpl; [done|].
  rewrite py_insert_perm. by rewrite IH.
Qed.

Lemma elem_of_py_sorted (x : A) (l : list A) : x ∈ py_sorted le l ↔ x ∈ l.
Proof. by rewrite py_sorted_perm. Qed.

Lemma length_py_sorted (l : list A) : length (py_sorted le l) = length l.
Proof. by rewrite py_sorted_perm. Qed.

Lemma py_sorted_nil_inv (l : list A) : py_sorted le l = [] → l = [].
Proof.
  intros E. apply Permutation_nil_r. rewrite <- E. symmetry.
  apply py_sorted_perm.
Qed.

Hypothesis le_total : ∀ x y, le x y = false → le y x = true.
Hypothesis le_trans : ∀ x y z, le x y = true → le y z = true → le x z = true.

Lemma py_insert_sorted (x : A) (l : list A) :
  StronglySorted (λ a b, le a b = true) l →
  StronglySorted (λ a b, le a b = true) (py_insert le x l).
Proof.
  induction 1 as [|y l Hs IH Hy]; simpl.
  - repeat constructor.
  - destruct (le x y) eqn:E.
    + constructor; [by constructor|].
      constructor; [done|].
      eapply Forall_impl; [exact Hy|]. intros z Hz. by eapply le_trans.
    + constructor; [done|].
      rewrite py_insert_perm. constructor; [by apply le_total|done].
Qed.

Lemma py_sorted_sorted (l : list A) :
  StronglySorted (λ a b, le a b = true) (py_sorted le l).
Proof.
  induction l as [|x l IH]; simpl; [constructor|].
  by apply py_insert_sorted.
Qed.

(** The first element of the sorted list ranks before every element. *)
Lemma py_sorted_head (l : list A) (x : A) (rest : list A) :
  py_sorted le l = x :: rest →
  x ∈ l ∧ ∀ y, y ∈ l → le x y = true.
Proof.
  intros E. pose proof (py_sorted_sorted l) as Hs. rewrite E in Hs.
  apply StronglySorted_inv in Hs as [_ Hx].
  split.
  - apply elem_of_py_sorted. rewrite E. by left.
  - intros y Hy. apply elem_of_py_sorted in Hy. rewrite E in Hy.
    apply elem_of_cons in Hy as [->|Hy].
    + destruct (le x x) eqn:Exx; [done|]. apply le_total in Exx as Exx'.
      congruence.
    + by eapply Forall_forall in Hx.
Qed.
End SortedFacts.

(** In a strongly sorted list, an element at a smaller index is related to one
    at a greater index. *)
Lemma StronglySorted_lookup {A} (R : relation A) (l : list A) (i j : nat) x y :
  StronglySorted R l → l !! i = Some x → l !! j = Some y → (i < j)%nat → R x y.
Proof.
  intros Hs. revert i j. induction Hs as [|a l Hs IH Ha]; intros i j Hi Hj Hij.
  - by rewrite lookup_nil in Hi.
  - destruct j as [|j]; [lia|]. simpl in Hj.
    destruct i as [|i]; simpl in Hi.
    + inversion Hi; subst. eapply Forall_forall in Ha; [done|].
      by eapply list_elem_of_lookup_2.
    + eapply IH; [done..|lia].
Qed.

Lemma StronglySorted_filter {A} (R : relation A) (P : A → Prop)
    `{∀ x, Decision (P x)} (l : list A) :
  StronglySorted R l → StronglySorted R (filter P l).
Proof.
  induction 1 as [|a l Hs IH Ha]; [constructor|].
  rewrite filter_cons. destruct (decide (P a)); [|done].
  constructor; [done|].
  apply Forall_forall. intros y Hy. apply list_elem_of_filter in Hy as [_ Hy].
  by eapply Forall_forall in Ha.
Qed.

(** ** Slices, loops and counts *)

Lemma py_slice_drop_last {A} (q : list A) (x : A) :
  py_slice None (Some (-1)) (q ++ [x]) = q.
Proof.
  unfold py_slice, slice_index. simpl. rewrite length_app. simpl.
  replace (Z.to_nat (Z.max 0 (-1 + Z.of_nat (length q + 1))) - 0)%nat
    with (length q) by lia.
  by rewrite drop_0, take_app_length.
Qed.

Lemma py_slice_tail {A} (l : list A) : py_slice (Some 1) None l = drop 1 l.
Proof.
  unfold py_slice, slice_index. simpl.
  destruct l as [|x l]; [done|].
  replace (Z.to_nat (Z.min 1 (Z.of_nat (length (x :: l))))) with 1%nat
    by (simpl; lia).
  by rewrite take_ge by (rewrite length_drop; lia).
Qed.

Lemma py_slice_inner {A} (l : list A) :
  py_slice (Some 1) (Some (-1)) l = drop 1 (take (length l - 1) l).
Proof.
  unfold py_slice, slice_index. simpl.
  destruct l as [|x l]; [done|].
  replace (Z.to_nat (Z.min 1 (Z.of_nat (length (x :: l))))) with 1%nat
    by (simpl; lia).
  replace (Z.to_nat (Z.max 0 (-1 + Z.of_nat (length (x :: l)))))
    with (length l) by (simpl; lia).
  replace (length (x :: l) - 1)%nat with (length l) by (simpl; lia).
  destruct l as [|y l]; [done|]. simpl. by rewrite Nat.sub_0_r.
Qed.

Lemma last_item_Ret {A} (l : list A) (x : A) :
  last_item l = Ret x → last l = Some x.
Proof. unfold last_item. destruct (last l); [|done]. by intros [= ->]. Qed.

Lemma bind_Ret_l {A B} (a : A) (f : A → outcome B) : Ret a ≫= f = f a.
Proof. reflexivity. Qed.

Lemma bind_Ret_inv {A B} (m : outcome A) (f : A → outcome B) (b : B) :
  m ≫= f = Ret b → ∃ a, m = Ret a ∧ f a = Ret b.
Proof. destruct m as [a| |]; [|done..]. intros Hf. by exists a. Qed.

(** A property of the state that every turn of a [for] loop preserves holds
    when the loop ends. *)
Lemma for_each_invariant {S B} (I : S → Prop) (body : S → B → outcome S)
    (l : list B) (s res : S) :
  I s →
  (∀ s b s', b ∈ l → I s → body s b = Ret s' → I s') →
  for_each body s l = Ret res → I res.
Proof.
  revert s. induction l as [|b l IH]; intros s Hs Hbody; simpl.
  - by intros [= <-].
  - intros Hres. apply bind_Ret_inv in Hres as (s' & Hb & Hres).
    apply (IH s'); [|intros ? ? ? ?; apply Hbody; by right|done].
    eapply Hbody; [by left|done..].
Qed.

Lemma length_omap_le {A B} (f : A → option B) (l : list A) :
  (length (omap f l) ≤ length l)%nat.
Proof.
  induction l as [|a l IH]; [done|].
  change (omap f (a :: l))
    with (match f a with Some y => y :: omap f l | None => omap f l end).
  destruct (f a); simpl; lia.
Qed.

Lemma seg_count_app (x : Z) (p q : path) :
  seg_count x (p ++ q) = (seg_count x p + seg_count x q)%nat.
Proof. unfold seg_count. by rewrite filter_app, length_app. Qed.

Lemma seg_count_abs (x y : Z) (p : path) :
  Z.abs x = Z.abs y → seg_count x p = seg_count y p.
Proof. unfold seg_count. by intros ->. Qed.

Lemma seg_count_snoc_other (x n : Z) (p : path) :
  Z.abs n ≠ Z.abs x → seg_count x (p ++ [n]) = seg_count x p.
Proof.
  intros Hne. rewrite seg_count_app. unfold seg_count at 2.
  rewrite filter_cons_False by done. simpl. lia.
Qed.

Lemma seg_count_snoc_same (x n : Z) (p : path) :
  Z.abs n = Z.abs x → seg_count x (p ++ [n]) = S (seg_count x p).
Proof.
  intros He. rewrite seg_count_app. unfold seg_count at 2.
  rewrite filter_cons_True by done. simpl. lia.
Qed.

(** The count the code takes, of a reference and of its negation, is at
    least the number of occurrences of the segment. *)
Lemma seg_count_le_count_so_far (n : Z) (p : path) :
  Z.of_nat (seg_count n p) ≤ count_so_far n p.
Proof.
  unfold count_so_far, py_count, seg_count.
  induction p as [|y p IH]; [done|].
  rewrite !filter_cons.
  destruct (decide (Z.abs y = Z.abs n)) as [Ha|Ha].
  - destruct (decide (y = n)), (decide (y = - n)); simpl; lia.
  - rewrite decide_False by lia. rewrite (decide_False (P:=y = - n)) by lia.
    done.
Qed.

Lemma seg_count_drop (x : Z) (k : nat) (p : path) :
  (seg_count x (drop k p) ≤ seg_count x p)%nat.
Proof.
  rewrite <- (take_drop k p) at 2. rewrite seg_count_app. lia.
Qed.

Lemma seg_count_take (x : Z) (k : nat) (p : path) :
  (seg_count x (take k p) ≤ seg_count x p)%nat.
Proof.
  rewrite <- (take_drop k p) at 2. rewrite seg_count_app. lia.
Qed.

Lemma seg_count_cons (x y : Z) (p : path) :
  seg_count x (y :: p)
  = ((if decide (Z.abs y = Z.abs x) then 1 else 0) + seg_count x p)%nat.
Proof.
  unfold seg_count. rewrite filter_cons.
  by destruct (decide (Z.abs y = Z.abs x)).
Qed.

Lemma seg_count_opp (x : Z) (p : path) :
  seg_count x (Z.opp <$> p) = seg_count x p.
Proof.
  induction p as [|y p IH]; [done|].
  rewrite fmap_cons, !seg_count_cons, IH.
  destruct (decide (Z.abs y = Z.abs x)).
  - by rewrite decide_True by lia.
  - by rewrite decide_False by lia.
Qed.

Lemma seg_count_reverse (x : Z) (p : path) :
  seg_count x (reverse p) = seg_count x p.
Proof.
  induction p as [|y p IH]; [done|].
  rewrite reverse_cons, seg_count_app, IH, !seg_count_cons.
  unfold seg_count. simpl. lia.
Qed.

Lemma seg_count_reverse_path (x : Z) (p : path) :
  seg_count x (reverse_path p) = seg_count x p.
Proof. unfold reverse_path. by rewrite seg_count_opp, seg_count_reverse. Qed.

(** ** Walks *)

Lemma is_walk_nil (graph : Graph) : is_walk graph [].
Proof. intros i a b Hi. by rewrite lookup_nil in Hi. Qed.

Lemma is_walk_singleton (graph : Graph) (x : Z) : is_walk graph [x].
Proof. intros i a b Hi Hj. by destruct i. Qed.

Lemma is_walk_app (graph : Graph) (p q : path) :
  is_walk graph p → is_walk graph q →
  (∀ a b, last p = Some a → head q = Some b → linked graph a b) →
  is_walk graph (p ++ q).
Proof.
  intros Hp Hq Hpq i a b Hi Hj.
  destruct (decide (S i < length p)%nat) as [Hlt|Hge].
  - rewrite lookup_app_l in Hi by lia. rewrite lookup_app_l in Hj by lia.
    by eapply Hp.
  - destruct (decide (i < length p)%nat) as [Hlt'|Hge'].
    + rewrite lookup_app_l in Hi by lia. rewrite lookup_app_r in Hj by lia.
      assert (i = (length p - 1)%nat) as -> by lia.
      replace (S (length p - 1) - length p)%nat with 0%nat in Hj by lia.
      apply Hpq.
      * rewrite last_lookup. by replace (pred (length p)) with (length p - 1)%nat by lia.
      * by rewrite head_lookup.
    + rewrite lookup_app_r in Hi by lia. rewrite lookup_app_r in Hj by lia.
      replace (S i - length p)%nat with (S (i - length p)) in Hj by lia.
      by eapply Hq.
Qed.

Lemma is_walk_drop (graph : Graph) (k : nat) (p : path) :
  is_walk graph p → is_walk graph (drop k p).
Proof.
  intros Hp i a b Hi Hj. rewrite lookup_drop in Hi, Hj.
  replace (k + S i)%nat with (S (k + i)) in Hj by lia. by eapply Hp.
Qed.

Lemma is_walk_take (graph : Graph) (k : nat) (p : path) :
  is_walk graph p → is_walk graph (take k p).
Proof.
  intros Hp i a b Hi Hj.
  apply lookup_take_Some in Hi as [Hi _]. apply lookup_take_Some in Hj as [Hj _].
  by eapply Hp.
Qed.

(** ** The ranking order *)

Lemma rank_le_spec (x y : Candidate) :
  rank_le x y = true ↔ ranks_no_later x y.
Proof.
  unfold rank_le, ranks_no_later.
  destruct (- cand_raw x ?= - cand_raw y)%Q eqn:E1.
  - apply Qeq_alt in E1.
    destruct (cand_disc x ?= cand_disc y) eqn:E2.
    + apply Z.compare_eq_iff in E2. rewrite bool_decide_eq_true.
      split.
      * intros H. right. split; [lra|]. right. split; [done|lra].
      * intros [H|[_ [H|[_ H]]]]; [lra|lia|lra].
    + apply Z.compare_lt_iff in E2. split; [|done].
      intros _. right. split; [lra|]. by left.
    + apply Z.compare_gt_iff in E2. split; [done|].
      intros [H|[_ [H|[H _]]]]; [lra|lia|lia].
  - apply Qlt_alt in E1. split; [|done]. intros _. left. lra.
  - apply Qgt_alt in E1. split; [done|].
    intros [H|[H _]]; lra.
Qed.

Lemma rank_le_total (x y : Candidate) : rank_le x y = false → rank_le y x = true.
Proof.
  intros H. apply rank_le_spec.
  assert (¬ ranks_no_later x y) as Hn.
  { intros Hr. apply rank_le_spec in Hr. congruence. }
  unfold ranks_no_later in *.
  destruct (Qlt_le_dec (cand_raw x) (cand_raw y)) as [?|Hle]; [by left|].
  destruct (Qlt_le_dec (cand_raw y) (cand_raw x)) as [?|Hle']; [tauto|].
  assert (cand_raw y == cand_raw x)%Q as Heq by lra.
  right. split; [done|].
  destruct (Z.lt_trichotomy (cand_disc x) (cand_disc y)) as [?|[?|?]].
  - exfalso. apply Hn. right. split; [lra|]. by left.
  - right. split; [done|].
    destruct (Qlt_le_dec (cand_scaled x) (cand_scaled y)) as [?|?]; [lra|].
    exfalso. apply Hn. right. split; [lra|]. right. done.
  - by left.
Qed.

Lemma rank_le_trans (x y z : Candidate) :
  rank_le x y = true → rank_le y z = true → rank_le x z = true.
Proof.
  rewrite !rank_le_spec. unfold ranks_no_later.
  intros [H1|[H1 H1']] [H2|[H2 H2']].
  - left. lra.
  - left. lra.
  - left. lra.
  - right. split; [lra|].
    destruct H1' as [?|[? ?]], H2' as [?|[? ?]];
      [left; lia|left; lia|left; lia|right; split; [lia|lra]].
Qed.

Lemma rank_le_raw (x y : Candidate) :
  rank_le x y = true → (cand_raw y <= cand_raw x)%Q.
Proof. rewrite rank_le_spec. intros [?|[? _]]; lra. Qed.


(** ** [get_best_paths_for_seq] *)

Section RankerFacts.
Context `{Imports}.

Lemma get_best_paths_for_seq_found fuel graph start_seg end_seg target_length
    sequence scoring_scheme expected_scaled_score res flag :
  get_best_paths_for_seq fuel graph start_seg end_seg target_length sequence
    scoring_scheme expected_scaled_score = Ret (res, flag) →
  ∃ paths,
    found_paths fuel graph start_seg end_seg target_length sequence
      scoring_scheme expected_scaled_score = Ret (paths, flag)
    ∧ res = rank_and_retain
              (scored_candidates graph target_length
                 (extend_sequence graph start_seg end_seg sequence)
                 scoring_scheme paths).
Proof.
  unfold get_best_paths_for_seq, found_paths.
  destruct (find_paths _ _ _ _ _ _ _ _ _ _) as [[paths fl]| |]; simpl;
    [|done..].
  intros [= <- <-]. by exists paths.
Qed.

Lemma found_get_best_paths_for_seq fuel graph start_seg end_seg target_length
    sequence scoring_scheme expected_scaled_score paths flag :
  found_paths fuel graph start_seg end_seg target_length sequence
    scoring_scheme expected_scaled_score = Ret (paths, flag) →
  get_best_paths_for_seq fuel graph start_seg end_seg target_length sequence
    scoring_scheme expected_scaled_score
  = Ret (rank_and_retain
           (scored_candidates graph target_length
              (extend_sequence graph start_seg end_seg sequence)
              scoring_scheme paths), flag).
Proof.
  unfold get_best_paths_for_seq, found_paths. by intros ->.
Qed.

Lemma rank_and_retain_sorted (scored : list Candidate) :
  StronglySorted (λ a b, rank_le a b = true) (rank_and_retain scored).
Proof.
  unfold rank_and_retain.
  pose proof (py_sorted_sorted rank_le rank_le_total rank_le_trans scored) as Hs.
  destruct (py_sorted rank_le scored) as [|best rest]; [done|].
  by apply StronglySorted_filter.
Qed.

End RankerFacts.

Section RankerClaims.
Context `{Imports}.


(** C6: the list returned by [get_best_paths_for_seq] is ordered by raw score
    descending, then length discrepancy ascending, then scaled score
    descending; of two returned candidates with different raw scores, the one
    with the higher raw score comes first. *)
Theorem final_ranking_order fuel graph start_seg end_seg target_length
    sequence scoring_scheme expected_scaled_score res flag :
  get_best_paths_for_seq fuel graph start_seg end_seg target_length sequence
    scoring_scheme expected_scaled_score = Ret (res, flag) →
  (∀ i j x y, res !! i = Some x → res !! j = Some y → (i < j)%nat →
     ranks_no_later x y)
  ∧ (∀ i j x y, res !! i = Some x → res !! j = Some y →
       (cand_raw y < cand_raw x)%Q → (i < j)%nat).
Proof.
  intros Hres. apply get_best_paths_for_seq_found in Hres as (paths & _ & ->).
  pose proof (rank_and_retain_sorted
    (scored_candidates graph target_length
       (extend_sequence graph start_seg end_seg sequence)
       scoring_scheme paths)) as Hs.
  split.
  - intros i j x y Hi Hj Hij. apply rank_le_spec.
    exact (StronglySorted_lookup (λ a b, rank_le a b = true) _ i j x y
             Hs Hi Hj Hij).
  - intros i j x y Hi Hj Hraw.
    destruct (decide (i < j)%nat) as [|Hge]; [done|]. exfalso.
    destruct (decide (i = j)) as [->|Hne].
    + rewrite Hi in Hj. injection Hj as ->. lra.
    + assert (rank_le y x = true) as Hle.
      { apply (StronglySorted_lookup (λ a b, rank_le a b = true) _ j i y x
                 Hs Hj Hi). lia. }
      apply rank_le_raw in Hle. lra.
Qed.


(** C10: when at least one candidate is scored and no scored candidate has a
    negative scaled score, the list returned by [get_best_paths_for_seq] is
    not empty and its first element is a scored candidate of maximal raw
    score. *)
Theorem top_candidate_survives fuel graph start_seg end_seg target_length
    sequence scoring_scheme expected_scaled_score paths flag :
  found_paths fuel graph start_seg end_seg target_length sequence
    scoring_scheme expected_scaled_score = Ret (paths, flag) →
  scored_candidates graph target_length
    (extend_sequence graph start_seg end_seg sequence) scoring_scheme paths
    ≠ [] →
  (∀ c, c ∈ scored_candidates graph target_length
              (extend_sequence graph start_seg end_seg sequence)
              scoring_scheme paths →
        (0 <= cand_scaled c)%Q) →
  ∃ top rest,
    get_best_paths_for_seq fuel graph start_seg end_seg target_length sequence
      scoring_scheme expected_scaled_score = Ret (top :: rest, flag)
    ∧ top ∈ scored_candidates graph target_length
              (extend_sequence graph start_seg end_seg sequence)
              scoring_scheme paths
    ∧ ∀ c, c ∈ scored_candidates graph target_length
                 (extend_sequence graph start_seg end_seg sequence)
                 scoring_scheme paths →
           (cand_raw c <= cand_raw top)%Q.
Proof.
  intros Hf Hne Hpos.
  rewrite (found_get_best_paths_for_seq _ _ _ _ _ _ _ _ _ _ Hf).
  set (scored := scored_candidates _ _ _ _ _) in *.
  unfold rank_and_retain.
  destruct (py_sorted rank_le scored) as [|best rest] eqn:E.
  { by apply py_sorted_nil_inv in E. }
  destruct (py_sorted_head rank_le rank_le_total rank_le_trans _ _ _ E)
    as [Hbest Hmin].
  rewrite filter_cons_True.
  2:{ specialize (Hpos _ Hbest). lra. }
  eexists _, _. split; [done|]. split; [done|].
  intros c Hc. by apply rank_le_raw, Hmin.
Qed.
End RankerClaims.

(** *** The ranker on the concrete graphs *)



Lemma final_ranking_order_witness :
  let res := [MkCandidate [3] 100%Q 0 50%Q; MkCandidate [4] 90%Q 0 100%Q] in
  (∀ i j x y, res !! i = Some x → res !! j = Some y → (i < j)%nat →
     ranks_no_later x y)
  ∧ (∀ i j x y, res !! i = Some x → res !! j = Some y →
       (cand_raw y < cand_raw x)%Q → (i < j)%nat).
Proof.
  apply (final_ranking_order (H:=two_path_imports)
           10 two_path_graph 1 2 10 [base_A] tt 90%Q _ false).
  vm_compute. reflexivity.
Defined.



Lemma top_candidate_survives_witness :
  ∃ top rest,
    get_best_paths_for_seq (H:=two_path_imports) 10 two_path_graph 1 2 10
      [base_A] tt 90%Q = Ret (top :: rest, false)
    ∧ top ∈ scored_candidates (H:=two_path_imports) two_path_graph 10
              (extend_sequence two_path_graph 1 2 [base_A]) tt [[3]; [4]]
    ∧ ∀ c, c ∈ scored_candidates (H:=two_path_imports) two_path_graph 10
                 (extend_sequence two_path_graph 1 2 [base_A]) tt [[3]; [4]] →
           (cand_raw c <= cand_raw top)%Q.
Proof.
  apply (top_candidate_survives (H:=two_path_imports)
           10 two_path_graph 1 2 10 [base_A] tt 90%Q [[3]; [4]] false).
  - vm_compute. reflexivity.
  - vm_compute. discriminate.
  - apply Forall_forall. vm_compute. repeat constructor; discriminate.
Defined.

(** ** [all_paths] *)

Section AllPathsFacts.
Context `{Imports}.
Context (graph : Graph) (end_ min_length max_length : Z) (sed : Q).

(** The invariant of the search is any property [P] of working paths that an
    admitted extension preserves; a final path [q] is then one above the
    minimal length for which [q ++ [end_]] was a working path. *)
Context (P : path → Prop).
Hypothesis P_extend : ∀ p last_seg nexts n,
  P p → last p = Some last_seg → last_seg ≠ end_ →
  get_path_length graph p ≤ max_length →
  forward_links graph !! last_seg = Some nexts → n ∈ nexts →
  count_so_far n p < max_path_segment_count graph n sed →
  P (p ++ [n]).

Lemma all_paths_visit_invariant (st st' : list path * list path) (wp : path) :
  P wp → Forall P st.1 → Forall (final_ok graph end_ min_length P) st.2 →
  all_paths_visit graph end_ min_length max_length sed st wp = Ret st' →
  Forall P st'.1 ∧ Forall (final_ok graph end_ min_length P) st'.2.
Proof.
  destruct st as [new finals]. simpl. intros Hwp Hnew Hfin.
  unfold all_paths_visit. intros Hv.
  apply bind_Ret_inv in Hv as (last_seg & Hlast & Hv).
  apply last_item_Ret in Hlast.
  destruct (decide (last_seg = end_)) as [->|Hne].
  - apply last_Some in Hlast as [q ->]. rewrite py_slice_drop_last in Hv.
    destruct (decide (min_length ≤ get_path_length graph q)).
    + destruct (decide (_ < _)); [done|]. injection Hv as <-. simpl.
      split; [done|]. apply Forall_app. split; [done|].
      by repeat constructor.
    + by injection Hv as <-.
  - destruct (decide (get_path_length graph wp ≤ max_length));
      [|by injection Hv as <-].
    destruct (forward_links graph !! last_seg) as [nexts|] eqn:Hfl;
      [|by injection Hv as <-].
    injection Hv as <-. simpl. split; [|done].
    apply Forall_app. split; [done|].
    apply Forall_fmap, Forall_forall. intros n Hn. simpl.
    apply list_elem_of_filter in Hn as [Hcap Hn].
    by eapply P_extend.
Qed.

Lemma all_paths_loop_invariant (fuel : nat) (working finals res : list path) :
  Forall P working → Forall (final_ok graph end_ min_length P) finals →
  all_paths_loop fuel graph end_ min_length max_length sed working finals
    = Ret res →
  Forall (final_ok graph end_ min_length P) res.
Proof.
  revert working finals.
  induction fuel as [|fuel IH]; intros working finals Hw Hf; simpl.
  - destruct working; [|done]. by intros [= <-].
  - destruct working as [|wp working]; [by intros [= <-]|].
    intros Hres. apply bind_Ret_inv in Hres as (st & Hfor & Hres).
    destruct (decide (_ < _)); [done|].
    eapply (for_each_invariant
              (λ st, Forall P st.1 ∧ Forall (final_ok graph end_ min_length P) st.2)) in Hfor.
    + destruct Hfor. by eapply IH.
    + by split.
    + intros s b s' Hb [? ?] Hv.
      eapply all_paths_visit_invariant; [|done..].
      by eapply Forall_forall in Hw.
Qed.
End AllPathsFacts.

Section AllPathsInvariant.
Context `{Imports}.

(** The invariant, for [all_paths] itself: [P] holds of the one-segment paths
    the search starts from and is preserved by extension. *)
Lemma all_paths_invariant (P : Q → path → Prop) (fuel : nat) (graph : Graph)
    (start end_ min_length target_length max_length : Z) (res : list path) :
  (∀ sed succs x, forward_links graph !! start = Some succs → x ∈ succs →
     P sed [x]) →
  (∀ sed p last_seg nexts n,
     P sed p → last p = Some last_seg → last_seg ≠ end_ →
     get_path_length graph p ≤ max_length →
     forward_links graph !! last_seg = Some nexts → n ∈ nexts →
     count_so_far n p < max_path_segment_count graph n sed →
     P sed (p ++ [n])) →
  all_paths fuel graph start end_ min_length target_length max_length
    = Ret res →
  ∀ q, q ∈ res →
    ∃ sed, start_end_depth graph start end_ = Ret sed
           ∧ min_length ≤ get_path_length graph q
           ∧ P sed (q ++ [end_]).
Proof.
  intros Hinit Hext. unfold all_paths.
  destruct (forward_links graph !! start) as [succs|] eqn:Hfl.
  - intros Hres. apply bind_Ret_inv in Hres as (sed & Hsed & Hres).
    intros q Hq. exists sed. split; [done|].
    eapply (all_paths_loop_invariant graph end_ min_length max_length sed
              (P sed)) in Hres.
    + eapply Forall_forall in Hres; [|done]. exact Hres.
    + intros. by eapply Hext.
    + apply Forall_fmap, Forall_forall. intros x Hx. simpl. by eapply Hinit.
    + constructor.
  - intros [= <-] q Hq. by apply elem_of_nil in Hq.
Qed.
End AllPathsInvariant.

Section AllPathsClaims.
Context `{Imports}.

(** Every path [all_paths] returns reaches the minimal length; it stays
    within the maximal length unless it is the empty path, which the search
    never measures against [max_length]. *)
Lemma all_paths_length_window fuel graph start end_ min_length target_length
    max_length res :
  all_paths fuel graph start end_ min_length target_length max_length
    = Ret res →
  ∀ q, q ∈ res →
    min_length ≤ get_path_length graph q
    ∧ (q = [] ∨ get_path_length graph q ≤ max_length).
Proof.
  intros Hres q Hq.
  eapply (all_paths_invariant
            (λ _ p, ∀ q x, p = q ++ [x] →
                      q = [] ∨ get_path_length graph q ≤ max_length))
    in Hres as (sed & _ & Hmin & Hp); [| | |done].
  - split; [done|]. by eapply Hp.
  - intros _ succs x _ _ q' x' E. left.
    destruct q' as [|? [|? ?]]; [done|done|done].
  - intros _ p last_seg nexts n _ Hlast _ Hlen _ _ _ q' x' E.
    apply app_inj_tail in E as [<- _]. by right.
Qed.

(** Every path [all_paths] returns is a walk that the end anchor is not part
    of. *)
Lemma all_paths_walk_without_end fuel graph start end_ min_length
    target_length max_length res :
  all_paths fuel graph start end_ min_length target_length max_length
    = Ret res →
  ∀ q, q ∈ res → (end_ ∉ q) ∧ is_walk graph q.
Proof.
  intros Hres q Hq.
  eapply (all_paths_invariant
            (λ _ p, (∀ q x, p = q ++ [x] → end_ ∉ q) ∧ is_walk graph p))
    in Hres as (sed & _ & _ & Hend & Hwalk); [| | |done].
  - split; [by eapply Hend|].
    rewrite <- (take_app_length q [end_]). by apply is_walk_take.
  - intros _ succs x _ _. split; [|apply is_walk_singleton].
    intros q' x' E. destruct q' as [|? [|? ?]]; [|done..].
    apply not_elem_of_nil.
  - intros _ p last_seg nexts n [Hend Hwalk] Hlast Hne _ Hfl Hn _. split.
    + intros q' x' E. apply app_inj_tail in E as [<- _].
      apply last_Some in Hlast as [p' ->].
      rewrite elem_of_app, list_elem_of_singleton.
      intros [Hin|Heq]; [|done]. by eapply Hend.
    + apply is_walk_app; [done|apply is_walk_singleton|].
      intros a b Ha [= <-]. rewrite Hlast in Ha. injection Ha as <-.
      unfold linked. by rewrite Hfl.
Qed.

(** When the repetition cap does not depend on the strand and allows every
    segment once, no segment occurs in a path returned by [all_paths] more
    often than its cap. *)
Lemma all_paths_capped fuel graph start end_ min_length target_length
    max_length res :
  (∀ x d, max_path_segment_count graph (- x) d
          = max_path_segment_count graph x d) →
  (∀ x d, 1 ≤ max_path_segment_count graph x d) →
  all_paths fuel graph start end_ min_length target_length max_length
    = Ret res →
  ∀ q, q ∈ res →
    ∃ sed, start_end_depth graph start end_ = Ret sed
      ∧ ∀ x, Z.of_nat (seg_count x q) ≤ max_path_segment_count graph x sed.
Proof.
  intros Hsym Hpos Hres q Hq.
  eapply (all_paths_invariant
            (λ sed p, ∀ x, Z.of_nat (seg_count x p)
                           ≤ max_path_segment_count graph x sed))
    in Hres as (sed & Hsed & _ & Hcap); [| | |done].
  - exists sed. split; [done|]. intros x. specialize (Hcap x).
    rewrite seg_count_app in Hcap. lia.
  - intros sed succs y _ _ x. rewrite seg_count_cons. specialize (Hpos x sed).
    change (seg_count x []) with 0%nat. destruct (decide _); simpl; lia.
  - intros sed p last_seg nexts n Hp _ _ _ _ _ Hcount x.
    destruct (decide (Z.abs n = Z.abs x)) as [Habs|Habs].
    + rewrite seg_count_snoc_same by done.
      pose proof (seg_count_le_count_so_far n p) as Hle.
      rewrite (seg_count_abs n x) in Hle by done.
      assert (max_path_segment_count graph n sed
              = max_path_segment_count graph x sed) as <-; [|lia].
      destruct (Z.abs_eq_cases n x Habs) as [->| ->]; [done|apply Hsym].
    + rewrite seg_count_snoc_other by done. apply Hp.
Qed.

(** C8: when the start anchor has no entry in the adjacency map, [all_paths]
    returns the empty list, whatever the length bounds and without raising. *)
Theorem all_paths_no_adjacency fuel graph start end_ min_length target_length
    max_length :
  forward_links graph !! start = None →
  all_paths fuel graph start end_ min_length target_length max_length
    = Ret [].
Proof. intros Hnone. unfold all_paths. by rewrite Hnone. Qed.
End AllPathsClaims.

Lemma all_paths_no_adjacency_witness :
  forward_links loop_graph !! 2 = None
  ∧ all_paths (H:=two_path_imports) 0 loop_graph 2 1 8 10 13 = Ret [].
Proof.
  split; [reflexivity|].
  apply (all_paths_no_adjacency (H:=two_path_imports) 0 loop_graph 2 1 8 10 13).
  reflexivity.
Defined.

(** C2, the failing input: the end anchor 2 directly follows the start anchor
    1 and the window is [-10, -1]. The empty path is returned, its length 0
    being at least [min_length]; it is never compared with [max_length]. *)
Theorem all_paths_returns_path_above_max_length :
  all_paths (H:=two_path_imports) 10 direct_graph 1 2 (-10) (-5) (-1)
    = Ret [[]]
  ∧ get_path_length direct_graph [] = 0
  ∧ ¬ (get_path_length direct_graph [] ≤ -1).
Proof. split; [by vm_compute|]. split; [done|]. simpl. lia. Qed.

(** ** [progressive_path_find] *)

Lemma foldl_invariant {S B} (I : S → Prop) (f : S → B → S) (l : list B)
    (s : S) :
  I s → (∀ s b, b ∈ l → I s → I (f s b)) → I (foldl f s l).
Proof.
  revert s. induction l as [|b l IH]; intros s Hs Hf; simpl; [done|].
  apply IH; [apply Hf; [by left|done]|].
  intros s' b' Hb'. apply Hf. by right.
Qed.

Section ProgressiveFacts.
Context `{Imports}.
Context (graph : Graph) (sed : Q).

(** The invariant of the progressive search is a property [W] of the working
    paths of both frontiers, kept by an admitted extension and by the loss of
    the first segment, and a property [F] of the final paths that holds of a
    working path joined with a reversed working path of the other side. *)
Context (W F : path → Prop).
Hypothesis W_extend : ∀ p last_seg nexts n,
  W p → last p = Some last_seg →
  forward_links graph !! last_seg = Some nexts → n ∈ nexts →
  count_so_far n p < max_path_segment_count graph n sed →
  W (p ++ [n]).
Hypothesis W_tail : ∀ p, W p → W (drop 1 p).
Hypothesis F_join : ∀ p q last_seg nexts n (flip : bool),
  W p → W q → last p = Some last_seg →
  forward_links graph !! last_seg = Some nexts → n ∈ nexts →
  count_so_far n p < max_path_segment_count graph n sed →
  head (reverse_path q) = Some n →
  F (if flip then reverse_path (p ++ reverse_path q)
     else p ++ reverse_path q).

Lemma build_path_dictionary_ok (paths : list path) (d : gmap Z (list path)) :
  Forall W paths → build_path_dictionary paths = Ret d → dict_ok W d.
Proof.
  intros Hw. unfold build_path_dictionary.
  apply for_each_invariant.
  - intros k parts part Hk. by rewrite lookup_empty in Hk.
  - intros d0 p d1 Hp Hd0. unfold dict_append.
    destruct (reverse_path p) as [|k r] eqn:Er; [done|].
    intros [= <-] k' parts part Hk' Hpart.
    destruct (decide (k' = k)) as [->|Hne].
    + rewrite lookup_insert_eq in Hk'. injection Hk' as <-.
      apply elem_of_app in Hpart as [Hpart|Hpart].
      * destruct (d0 !! k) as [old|] eqn:Hold; simpl in Hpart;
          [by eapply Hd0|by apply elem_of_nil in Hpart].
      * apply list_elem_of_singleton in Hpart as ->.
        exists p. split; [by eapply Forall_forall in Hw|]. by rewrite Er.
    + rewrite lookup_insert_ne in Hk' by done. by eapply Hd0.
Qed.

Lemma advance_next_ok opp flip max_length p last_seg nexts st n :
  dict_ok W opp → W p → last p = Some last_seg →
  forward_links graph !! last_seg = Some nexts → n ∈ nexts →
  count_so_far n p < max_path_segment_count graph n sed →
  frontier_ok W F st →
  frontier_ok W F (advance_next graph opp flip max_length p st n).
Proof.
  intros Hopp Hp Hlast Hfl Hn Hcap [Hnew Hfin]. destruct st as [new finals].
  simpl in *. unfold advance_next.
  assert (set_Forall F
            match opp !! n with
            | Some final_parts =>
              foldl (λ (fs : gset path) final_part,
                       let final_path := p ++ final_part in
                       let final_path :=
                         if flip then reverse_path final_path
                         else final_path in
                       {[ final_path ]} ∪ fs)
                    finals final_parts
            | None => finals
            end) as Hfin'.
  { destruct (opp !! n) as [parts|] eqn:Hparts; [|done].
    apply (foldl_invariant (set_Forall F)); [done|].
    intros fs part Hpart Hfs. simpl.
    apply set_Forall_union; [|done]. apply set_Forall_singleton.
    destruct (Hopp _ _ _ Hparts Hpart) as (q & Hq & -> & Hhead).
    by eapply F_join. }
  destruct (decide (_ ≤ max_length)); split; simpl; try done.
  apply Forall_app. split; [done|]. constructor; [|done].
  by eapply W_extend.
Qed.

Lemma advance_visit_ok opp flip max_length shortest st st' p :
  dict_ok W opp → W p → frontier_ok W F st →
  advance_visit graph opp flip sed max_length shortest st p = Ret st' →
  frontier_ok W F st'.
Proof.
  intros Hopp Hp Hst. unfold advance_visit.
  destruct (decide (shortest < get_path_length graph p)).
  - intros [= <-]. destruct Hst as [Hnew Hfin]. split; simpl; [|done].
    apply Forall_app. split; [done|]. by constructor.
  - intros Hv. apply bind_Ret_inv in Hv as (last_seg & Hlast & Hv).
    apply last_item_Ret in Hlast.
    destruct (forward_links graph !! last_seg) as [nexts|] eqn:Hfl;
      [|by injection Hv as <-].
    injection Hv as <-.
    apply (foldl_invariant (frontier_ok W F)); [done|].
    intros s next_seg Hn Hs. apply list_elem_of_filter in Hn as [Hcap Hn].
    by eapply advance_next_ok.
Qed.

Lemma advance_loop_ok fuel opp flip max_length working finals st :
  dict_ok W opp → Forall W working → set_Forall F finals →
  advance_loop fuel graph opp flip sed max_length working finals = Ret st →
  frontier_ok W F st.
Proof.
  intros Hopp. revert working finals.
  induction fuel as [|fuel IH]; intros working finals Hw Hf; simpl.
  - destruct (decide _); [done|]. by intros [= <-].
  - destruct (decide _); [|by intros [= <-]].
    intros Hres. apply bind_Ret_inv in Hres as (shortest & _ & Hres).
    apply bind_Ret_inv in Hres as (st1 & Hfor & Hres).
    eapply (for_each_invariant (frontier_ok W F)) in Hfor.
    + destruct Hfor. by eapply IH.
    + split; [constructor|done].
    + intros s p s' Hp Hs Hv. eapply advance_visit_ok; [done| |done..].
      by eapply Forall_forall in Hw.
Qed.

(** The threshold loop of [cull_paths] answers some of the scored paths. *)
Lemma cull_threshold_loop_subset fuel best_score scored threshold surviving :
  cull_threshold_loop fuel best_score scored threshold = Ret surviving →
  surviving ⊆ scored ∧ (length surviving ≤ length scored)%nat.
Proof.
  revert threshold. induction fuel as [|fuel IH]; intros threshold; simpl;
    [done|].
  destruct (decide _); [apply IH|].
  intros [= <-]. split.
  - intros x Hx. by apply list_elem_of_filter in Hx as [_ Hx].
  - apply length_filter.
Qed.

(** The scored paths of [cull_paths] are paths of its argument without
    their first segment. *)
Lemma cull_scored_paths_returns paths sequence scoring_scheme scored :
  cull_scored_paths graph paths sequence scoring_scheme = Ret scored →
  (∀ sp, sp ∈ scored → ∃ p, p ∈ paths ∧ sp.1 = drop 1 p)
  ∧ (length scored ≤ length paths)%nat
  ∧ (0 < length paths)%nat.
Proof.
  unfold cull_scored_paths. intros Hres.
  apply bind_Ret_inv in Hres as (smallest & Hsmall & Hres).
  assert (0 < length paths)%nat as Hlen.
  { destruct paths; [done|simpl; lia]. }
  apply bind_Ret_inv in Hres as (seq_align_start & _ & Hres).
  apply bind_Ret_inv in Hres as (shortest_len & _ & Hres).
  injection Hres as <-. split; [|split; [|done]].
  - intros sp Hsp. apply elem_of_py_sorted in Hsp.
    apply list_elem_of_omap in Hsp as (p & Hp & Hsp).
    exists p. split; [done|]. unfold cull_score in Hsp.
    destruct (path_alignment _ _ _ _ _); [|done].
    injection Hsp as <-. simpl. apply py_slice_tail.
  - rewrite length_py_sorted. apply length_omap_le.
Qed.

(** What [cull_paths] returns: paths of its argument without their first
    segment, and fewer of them than it was given. *)
Lemma cull_paths_returns fuel paths sequence scoring_scheme expected res :
  cull_paths fuel graph paths sequence scoring_scheme expected = Ret res →
  (∀ r, r ∈ res → ∃ p, p ∈ paths ∧ r = drop 1 p)
  ∧ (length res < length paths)%nat.
Proof.
  unfold cull_paths. intros Hres.
  apply bind_Ret_inv in Hres as (scored & Hscored & Hres).
  apply cull_scored_paths_returns in Hscored as (Hscored & Hlen_scored & Hlen).
  destruct scored as [|best rest] eqn:E.
  { injection Hres as <-. split; [|done].
    intros r Hr. by apply elem_of_nil in Hr. }
  rewrite <- E in *. clear E.
  destruct (decide _).
  { injection Hres as <-. split; [|done].
    intros r Hr. by apply elem_of_nil in Hr. }
  apply bind_Ret_inv in Hres as (surviving & Hloop & Hres).
  apply cull_threshold_loop_subset in Hloop as [Hsub Hsurv].
  assert (∀ r, r ∈ (fst <$> surviving) → ∃ p, p ∈ paths ∧ r = drop 1 p)
    as Hfst.
  { intros r Hr. apply list_elem_of_fmap in Hr as (sp & -> & Hsp).
    apply Hscored. by apply Hsub. }
  destruct (decide _) as [Heq|Hne]; injection Hres as <-.
  - split.
    + intros r Hr. apply Hfst. by eapply subseteq_take.
    + rewrite length_take.
      assert (length (fst <$> surviving) / 2 < length (fst <$> surviving))%nat
        as Hhalf by (apply Nat.div_lt; lia).
      eapply Nat.le_lt_trans; [apply Nat.le_min_l|].
      rewrite <- Heq. exact Hhalf.
  - split; [done|]. rewrite length_fmap in *. lia.
Qed.

Lemma advance_paths_ok fuel working opp shortest_opposite finals flip
    sequence scoring_scheme expected total_max_length st :
  dict_ok W opp → Forall W working → set_Forall F finals →
  advance_paths fuel working opp shortest_opposite finals flip sequence
    scoring_scheme expected graph sed total_max_length = Ret st →
  frontier_ok W F st.
Proof.
  intros Hopp Hw Hf. unfold advance_paths. intros Hres.
  apply bind_Ret_inv in Hres as (st1 & Hloop & Hres).
  apply advance_loop_ok in Hloop as [Hw1 Hf1]; [|done..].
  destruct (decide _); [|by injection Hres as <-].
  apply bind_Ret_inv in Hres as (culled & Hcull & Hres).
  injection Hres as <-. split; simpl; [|done].
  apply cull_paths_returns in Hcull as [Hcull _].
  apply Forall_forall. intros r Hr.
  destruct (Hcull r Hr) as (p & Hp & ->).
  apply W_tail. by eapply Forall_forall in Hw1.
Qed.

Lemma progressive_loop_ok rounds fuel max_length sequence reverse_sequence
    scoring_scheme expected forward reverse_ finals res :
  Forall W forward → Forall W reverse_ → set_Forall F finals →
  progressive_loop rounds fuel graph max_length sequence reverse_sequence
    scoring_scheme expected sed forward reverse_ finals = Ret res →
  set_Forall F res.
Proof.
  revert forward reverse_ finals.
  induction rounds as [|rounds IH]; intros forward reverse_ finals Hfw Hrv Hf;
    simpl; [done|].
  intros Hres.
  apply bind_Ret_inv in Hres as (shortest_reverse & _ & Hres).
  apply bind_Ret_inv in Hres as (reverse_dict & Hrd & Hres).
  apply build_path_dictionary_ok in Hrd; [|done].
  apply bind_Ret_inv in Hres as ([forward1 finals1] & Hadv & Hres).
  apply advance_paths_ok in Hadv as [Hfw1 Hf1]; [|done..]. simpl in *.
  destruct forward1 as [|fp forward1]; [by injection Hres as <-|].
  apply bind_Ret_inv in Hres as (shortest_forward & _ & Hres).
  apply bind_Ret_inv in Hres as (forward_dict & Hfd & Hres).
  apply build_path_dictionary_ok in Hfd; [|done].
  apply bind_Ret_inv in Hres as ([reverse1 finals2] & Hadv & Hres).
  apply advance_paths_ok in Hadv as [Hrv1 Hf2]; [|done..]. simpl in *.
  destruct reverse1 as [|rp reverse1]; [by injection Hres as <-|].
  exact (IH _ _ _ Hfw1 Hrv1 Hf2 Hres).
Qed.
End ProgressiveFacts.

(** ** Strand symmetry *)

Lemma strand_symmetric_check_sound (graph : Graph) :
  strand_symmetric_check graph = true → strand_symmetric graph.
Proof.
  unfold strand_symmetric_check. intros Hall a b Hab. unfold linked in Hab.
  destruct (forward_links graph !! a) as [nexts|] eqn:Hfl; [|done].
  rewrite forallb_forall in Hall.
  specialize (Hall (a, nexts)). simpl in Hall.
  rewrite forallb_forall in Hall.
  eapply bool_decide_eq_true, Hall.
  - apply list_elem_of_In. by apply elem_of_map_to_list.
  - by apply list_elem_of_In.
Qed.

Lemma is_walk_reverse_path (graph : Graph) (p : path) :
  strand_symmetric graph → is_walk graph p → is_walk graph (reverse_path p).
Proof.
  intros Hsym Hp i a b Hi Hj. unfold reverse_path in Hi, Hj.
  rewrite list_lookup_fmap in Hi, Hj.
  destruct (reverse p !! i) as [a'|] eqn:Hi'; [|done].
  destruct (reverse p !! S i) as [b'|] eqn:Hj'; [|done].
  simpl in Hi, Hj. injection Hi as <-. injection Hj as <-.
  assert (S i < length p)%nat as Hlt.
  { apply lookup_lt_Some in Hj'. by rewrite length_reverse in Hj'. }
  rewrite reverse_lookup in Hi' by lia.
  rewrite reverse_lookup in Hj' by lia.
  apply Hsym.
  eapply (Hp (length p - S (S i))%nat); [done|].
  by replace (S (length p - S (S i))) with (length p - S i)%nat by lia.
Qed.

(** ** The searches, as their callers see them *)

Section SearchInvariant.
Context `{Imports}.

(** The invariant, for [progressive_path_find] itself: every returned path is
    a final path without its two ends, and its length is in the window. *)
Lemma progressive_path_find_invariant (W F : Q → path → Prop) (fuel : nat)
    (graph : Graph) (start end_ min_length max_length : Z) (sequence : dna)
    (scoring_scheme : ScoringScheme) (expected : Q) (res : list path) :
  (∀ sed p last_seg nexts n,
     W sed p → last p = Some last_seg →
     forward_links graph !! last_seg = Some nexts → n ∈ nexts →
     count_so_far n p < max_path_segment_count graph n sed →
     W sed (p ++ [n])) →
  (∀ sed p, W sed p → W sed (drop 1 p)) →
  (∀ sed p q last_seg nexts n (flip : bool),
     W sed p → W sed q → last p = Some last_seg →
     forward_links graph !! last_seg = Some nexts → n ∈ nexts →
     count_so_far n p < max_path_segment_count graph n sed →
     head (reverse_path q) = Some n →
     F sed (if flip then reverse_path (p ++ reverse_path q)
            else p ++ reverse_path q)) →
  (∀ sed, W sed [start]) → (∀ sed, W sed [- end_]) →
  progressive_path_find fuel graph start end_ min_length max_length sequence
    scoring_scheme expected = Ret res →
  ∀ r, r ∈ res →
    ∃ sed raw,
      start_end_depth graph start end_ = Ret sed
      ∧ F sed raw
      ∧ r = drop 1 (take (length raw - 1) raw)
      ∧ min_length ≤ get_path_length graph r
      ∧ get_path_length graph r ≤ max_length.
Proof.
  intros Hext Htail Hjoin Hstart Hend. unfold progressive_path_find.
  intros Hres. apply bind_Ret_inv in Hres as (sed & Hsed & Hres).
  apply bind_Ret_inv in Hres as (finals & Hloop & Hres).
  injection Hres as <-. intros r Hr.
  apply list_elem_of_filter in Hr as [[Hmin Hmax] Hr].
  apply list_elem_of_fmap in Hr as (raw & -> & Hraw).
  apply elem_of_elements in Hraw.
  exists sed, raw. split; [done|].
  rewrite py_slice_inner in *. split; [|done].
  eapply (progressive_loop_ok graph sed (W sed) (F sed)) in Hloop.
  - by apply Hloop.
  - apply Hext.
  - apply Htail.
  - apply Hjoin.
  - by repeat constructor.
  - by repeat constructor.
  - intros x Hx. by apply elem_of_empty in Hx.
Qed.

Lemma progressive_path_find_capped fuel graph start end_ min_length max_length
    sequence scoring_scheme expected res :
  (∀ x d, max_path_segment_count graph (- x) d
          = max_path_segment_count graph x d) →
  (∀ x d, 1 ≤ max_path_segment_count graph x d) →
  progressive_path_find fuel graph start end_ min_length max_length sequence
    scoring_scheme expected = Ret res →
  ∀ q, q ∈ res →
    ∃ sed, start_end_depth graph start end_ = Ret sed
      ∧ ∀ x, Z.of_nat (seg_count x q)
             ≤ 2 * max_path_segment_count graph x sed.
Proof.
  intros Hsym Hpos Hres q Hq.
  assert (∀ sed (y : Z) x, Z.of_nat (seg_count x [y])
                           ≤ max_path_segment_count graph x sed) as Hone.
  { intros sed y x. rewrite seg_count_cons. specialize (Hpos x sed).
    change (seg_count x []) with 0%nat. destruct (decide _); simpl; lia. }
  eapply (progressive_path_find_invariant
            (λ sed p, ∀ x, Z.of_nat (seg_count x p)
                           ≤ max_path_segment_count graph x sed)
            (λ sed p, ∀ x, Z.of_nat (seg_count x p)
                           ≤ 2 * max_path_segment_count graph x sed))
    in Hres as (sed & raw & Hsed & Hraw & -> & _); [| | | | | |done].
  - exists sed. split; [done|]. intros x. specialize (Hraw x).
    pose proof (seg_count_drop x 1 (take (length raw - 1) raw)).
    pose proof (seg_count_take x (length raw - 1) raw). lia.
  - intros sed p last_seg nexts n Hp _ _ _ Hcount x.
    destruct (decide (Z.abs n = Z.abs x)) as [Habs|Habs].
    + rewrite seg_count_snoc_same by done.
      pose proof (seg_count_le_count_so_far n p) as Hle.
      rewrite (seg_count_abs n x) in Hle by done.
      assert (max_path_segment_count graph n sed
              = max_path_segment_count graph x sed) as <-; [|lia].
      destruct (Z.abs_eq_cases n x Habs) as [->| ->]; [done|apply Hsym].
    + rewrite seg_count_snoc_other by done. apply Hp.
  - intros sed p Hp x. pose proof (seg_count_drop x 1 p). specialize (Hp x).
    lia.
  - intros sed p q' last_seg nexts n flip Hp Hq' _ _ _ _ _ x.
    assert (Z.of_nat (seg_count x (p ++ reverse_path q'))
            ≤ 2 * max_path_segment_count graph x sed) as Hsum.
    { rewrite seg_count_app, seg_count_reverse_path.
      specialize (Hp x). specialize (Hq' x). lia. }
    destruct flip; [by rewrite seg_count_reverse_path|done].
  - intros sed. apply Hone.
  - intros sed. apply Hone.
Qed.

Lemma progressive_path_find_walk fuel graph start end_ min_length max_length
    sequence scoring_scheme expected res :
  strand_symmetric graph →
  progressive_path_find fuel graph start end_ min_length max_length sequence
    scoring_scheme expected = Ret res →
  ∀ q, q ∈ res → is_walk graph q.
Proof.
  intros Hsym Hres q Hq.
  eapply (progressive_path_find_invariant
            (λ _ p, is_walk graph p) (λ _ p, is_walk graph p))
    in Hres as (sed & raw & _ & Hraw & -> & _); [| | | | | |done].
  - by apply is_walk_drop, is_walk_take.
  - intros _ p last_seg nexts n Hp Hlast Hfl Hn _.
    apply is_walk_app; [done|apply is_walk_singleton|].
    intros a b Ha [= <-]. rewrite Hlast in Ha. injection Ha as <-.
    unfold linked. by rewrite Hfl.
  - intros _ p Hp. by apply is_walk_drop.
  - intros _ p q' last_seg nexts n flip Hp Hq' Hlast Hfl Hn _ Hhead.
    assert (is_walk graph (p ++ reverse_path q')) as Hjoin.
    { apply is_walk_app; [done|by apply is_walk_reverse_path|].
      intros a b Ha Hb. rewrite Hlast in Ha. injection Ha as <-.
      rewrite Hhead in Hb. injection Hb as <-.
      unfold linked. by rewrite Hfl. }
    destruct flip; [by apply is_walk_reverse_path|done].
  - intros _. apply is_walk_singleton.
  - intros _. apply is_walk_singleton.
Qed.

(** C3 (amended): when the repetition cap does not depend on the strand and
    allows every segment once, no segment occurs in a path returned by
    [all_paths] more often than its cap, a reference and its negation counting
    together; in a path returned by [progressive_path_find], which joins a
    path of one frontier with a path of the other without counting again, no
    segment occurs more often than twice its cap. *)
Theorem repetition_cap_per_frontier fuel graph start end_ min_length
    target_length max_length sequence scoring_scheme expected :
  (∀ x d, max_path_segment_count graph (- x) d
          = max_path_segment_count graph x d) →
  (∀ x d, 1 ≤ max_path_segment_count graph x d) →
  (∀ res,
     all_paths fuel graph start end_ min_length target_length max_length
       = Ret res →
     ∀ q, q ∈ res →
       ∃ sed, start_end_depth graph start end_ = Ret sed
         ∧ ∀ x, Z.of_nat (seg_count x q)
                ≤ max_path_segment_count graph x sed)
  ∧ (∀ res,
       progressive_path_find fuel graph start end_ min_length max_length
         sequence scoring_scheme expected = Ret res →
       ∀ q, q ∈ res →
         ∃ sed, start_end_depth graph start end_ = Ret sed
           ∧ ∀ x, Z.of_nat (seg_count x q)
                  ≤ 2 * max_path_segment_count graph x sed).
Proof.
  intros Hsym Hpos. split.
  - intros res Hres. by eapply all_paths_capped.
  - intros res Hres. by eapply progressive_path_find_capped.
Qed.

(** C4 (amended): a path returned by [all_paths] does not contain the end
    anchor, and each of its references is followed by one of its adjacency
    list; when the adjacency map is closed under strand reversal, the same
    holds of the consecutive references of a path returned by
    [progressive_path_find]. The start anchor may occur inside a returned
    path. *)
Theorem returned_paths_are_walks fuel graph start end_ min_length
    target_length max_length sequence scoring_scheme expected :
  (∀ res,
     all_paths fuel graph start end_ min_length target_length max_length
       = Ret res →
     ∀ q, q ∈ res → (end_ ∉ q) ∧ is_walk graph q)
  ∧ (strand_symmetric graph →
     ∀ res,
       progressive_path_find fuel graph start end_ min_length max_length
         sequence scoring_scheme expected = Ret res →
       ∀ q, q ∈ res → is_walk graph q).
Proof.
  split.
  - intros res Hres. by eapply all_paths_walk_without_end.
  - intros Hsym res Hres. by eapply progressive_path_find_walk.
Qed.
End SearchInvariant.

(** *** The searches on the concrete graphs *)

Lemma junction_graph_symmetric : strand_symmetric junction_graph.
Proof. apply strand_symmetric_check_sound. by vm_compute. Qed.

(** C3, counterexample: with a cap of 1 for every segment, the progressive
    search returns the path [7; 3; 7]: the forward frontier contributed
    [7; 3], the reverse frontier the second passage through 7, and the joined
    path was not counted again. *)
Lemma joined_path_exceeds_cap :
  progressive_path_find (H:=junction_imports) 20 junction_graph 1 2 0 100
    [base_A] tt 90%Q = Ret [[7; 3; 7]; [6; 7]]
  ∧ seg_count 7 [7; 3; 7] = 2%nat
  ∧ ∀ d, max_path_segment_count junction_graph 7 d = 1.
Proof. split; [by vm_compute|]. by split. Qed.

Lemma repetition_cap_per_frontier_witness :
  (∀ q, q ∈ [[6; 7]] →
     ∃ sed, start_end_depth (H:=junction_imports) junction_graph 1 2 = Ret sed
       ∧ ∀ x, Z.of_nat (seg_count x q)
              ≤ max_path_segment_count junction_graph x sed)
  ∧ (∀ q, q ∈ [[7; 3; 7]; [6; 7]] →
       ∃ sed, start_end_depth (H:=junction_imports) junction_graph 1 2
              = Ret sed
         ∧ ∀ x, Z.of_nat (seg_count x q)
                ≤ 2 * max_path_segment_count junction_graph x sed).
Proof.
  destruct (repetition_cap_per_frontier (H:=junction_imports) 20
              junction_graph 1 2 0 50 100 [base_A] tt 90%Q)
    as [Hall Hprog].
  - intros x d. reflexivity.
  - intros x d. simpl. lia.
  - split.
    + apply Hall. vm_compute. reflexivity.
    + apply Hprog. vm_compute. reflexivity.
Defined.

(** C4, counterexample: segment 3 leads back to the start anchor 1, and
    [all_paths] returns the path [3; 1; 3], of which the start anchor is a
    member. *)
Lemma all_paths_returns_path_through_start :
  all_paths (H:=two_path_imports) 20 loop_graph 1 2 0 30 100
    = Ret [[3]; [3; 1; 3]]
  ∧ 1 ∈ [3; 1; 3].
Proof. split; [by vm_compute|]. right. by left. Qed.

Lemma returned_paths_are_walks_witness :
  (∀ q, q ∈ [[6; 7]] → (2 ∉ q) ∧ is_walk junction_graph q)
  ∧ (∀ q, q ∈ [[7; 3; 7]; [6; 7]] → is_walk junction_graph q).
Proof.
  destruct (returned_paths_are_walks (H:=junction_imports) 20
              junction_graph 1 2 0 50 100 [base_A] tt 90%Q)
    as [Hall Hprog].
  split.
  - apply Hall. vm_compute. reflexivity.
  - apply Hprog.
    + apply strand_symmetric_check_sound. vm_compute. reflexivity.
    + vm_compute. reflexivity.
Defined.

(** ** The culling *)

Lemma length_filter_impl {A} (P1 P2 : A → Prop) `{∀ x, Decision (P1 x)}
    `{∀ x, Decision (P2 x)} (l : list A) :
  (∀ x, P1 x → P2 x) → (length (filter P1 l) ≤ length (filter P2 l))%nat.
Proof.
  intros Himpl. induction l as [|x l IH]; [done|].
  rewrite !filter_cons.
  destruct (decide (P1 x)) as [H1|H1].
  - rewrite decide_True by auto. simpl. lia.
  - destruct (decide (P2 x)); simpl; lia.
Qed.

Section CullFacts.
Context `{Imports}.

(** The threshold never passes 1: when more than half the working-path
    ceiling of the scored paths reach the best score, the loop of
    [cull_paths] does not end. *)
Lemma cull_threshold_loop_ties fuel best_score scored threshold :
  (0 <= best_score)%Q → (threshold <= 1)%Q →
  PROGRESSIVE_PATH_SEARCH_MAX_WORKING_PATHS settings `div` 2
    < Z.of_nat (length (filter (λ sp : path * Q, (best_score <= sp.2)%Q)
                          scored)) →
  cull_threshold_loop fuel best_score scored threshold = OutOfFuel.
Proof.
  intros Hbest. revert threshold.
  induction fuel as [|fuel IH]; intros threshold Hthr Hties; simpl; [done|].
  rewrite decide_True.
  - apply IH; [|done].
    assert (0 <= (1 - threshold) / 2)%Q as Hgap.
    { apply Qle_shift_div_l; [reflexivity|]. lra. }
    lra.
  - eapply Z.lt_le_trans; [exact Hties|].
    apply Nat2Z.inj_le, length_filter_impl.
    intros sp Hsp. simpl in *.
    assert (best_score * threshold <= best_score * 1)%Q as Hle.
    { rewrite (Qmult_comm best_score threshold), (Qmult_comm best_score 1).
      by apply Qmult_le_compat_r. }
    lra.
Qed.
End CullFacts.

(** C7, the failing input: three working paths that fork from a common chain
    and align equally well, with a ceiling of 2 working paths. All three
    reach the best score at every threshold, 3 is more than 2 // 2, and the
    loop of [cull_paths] runs out of any fuel. *)
Theorem cull_paths_never_returns_on_ties (fuel : nat) :
  cull_paths (H:=junction_imports) fuel tie_graph
    [[1; 6; 7; 4]; [1; 6; 7; 5]; [1; 6; 7; 2]] [base_G] tt 50%Q = OutOfFuel.
Proof.
  unfold cull_paths.
  assert (cull_scored_paths (H:=junction_imports) tie_graph
            [[1; 6; 7; 4]; [1; 6; 7; 5]; [1; 6; 7; 2]] [base_G] tt
          = Ret [([6; 7; 4], 50%Q); ([6; 7; 5], 50%Q); ([6; 7; 2], 50%Q)])
    as -> by (by vm_compute).
  simpl.
  rewrite cull_threshold_loop_ties; [done|by vm_compute|by vm_compute|].
  by vm_compute.
Qed.

(** C5, the failing input: the first call of [advance_paths] by
    [progressive_path_find] on the junction graph, with the forward frontier
    [[1]]. Three working paths exceed the ceiling of 2, [cull_paths] keeps the
    best one without its first segment, and the forward frontier becomes
    [[6; 7; 3]], which does not begin with the start anchor 1. *)
Theorem cull_drops_start_anchor :
  ∃ sed reverse_paths_dict shortest_reverse_path,
    start_end_depth (H:=junction_imports) junction_graph 1 2 = Ret sed
    ∧ build_path_dictionary [[- 2]] = Ret reverse_paths_dict
    ∧ shortest_path junction_graph [[- 2]] = Ret shortest_reverse_path
    ∧ (st ← advance_paths (H:=junction_imports) 20 [[1]] reverse_paths_dict
              shortest_reverse_path ∅ false [base_A] tt 90%Q junction_graph
              sed 100;
       mret st.1) = Ret [[6; 7; 3]]
    ∧ head [6; 7; 3] ≠ Some 1.
Proof.
  eexists _, _, _.
  split; [by vm_compute|]. split; [by vm_compute|]. split; [by vm_compute|].
  split; [by vm_compute|]. done.
Qed.

(** * Further properties of the code *)

(** ** [reverse_path] and [build_path_dictionary] *)

Lemma reverse_path_twice (p : path) : reverse_path (reverse_path p) = p.
Proof.
  unfold reverse_path.
  rewrite fmap_reverse, <- list_fmap_compose, fmap_reverse, reverse_involutive.
  rewrite <- (list_fmap_id p) at 2. apply list_fmap_ext.
  intros i x _. simpl. lia.
Qed.

(** X1: [reverse_path] is its own inverse; the reversed path has as many
    segments as the path, and its members are the negations of the members
    of the path. *)
Theorem reverse_path_involutive (p : path) :
  reverse_path (reverse_path p) = p
  ∧ length (reverse_path p) = length p
  ∧ ∀ x, x ∈ reverse_path p ↔ - x ∈ p.
Proof.
  split; [apply reverse_path_twice|]. unfold reverse_path. split.
  - by rewrite length_fmap, length_reverse.
  - intros x. rewrite list_elem_of_fmap. split.
    + intros (y & Hxy & Hy). rewrite elem_of_reverse in Hy.
      by replace (- x) with y by lia.
    + intros Hx. exists (- x). split; [lia|]. by rewrite elem_of_reverse.
Qed.

Lemma reverse_path_app (p q : path) :
  reverse_path (p ++ q) = reverse_path q ++ reverse_path p.
Proof. unfold reverse_path. by rewrite reverse_app, fmap_app. Qed.

(** X2: a final path found from the reverse side, the working path [p]
    joined with the reversed forward path [q] and then flipped, reads as [q]
    followed by the reversal of [p]; the flip keeps the number of segments. *)
Theorem flipped_final_path (p q : path) :
  reverse_path (p ++ reverse_path q) = q ++ reverse_path p
  ∧ length (reverse_path (p ++ reverse_path q)) = (length p + length q)%nat.
Proof.
  rewrite reverse_path_app, reverse_path_twice. split; [done|].
  unfold reverse_path.
  rewrite length_app, length_fmap, length_reverse. lia.
Qed.

Lemma reverse_path_head (p : path) (k : Z) :
  head (reverse_path p) = Some k ↔ last p = Some (- k).
Proof.
  unfold reverse_path. rewrite <- (reverse_involutive p) at 2.
  rewrite last_reverse.
  destruct (reverse p) as [|x l]; simpl; [naive_solver|].
  split; intros [= E]; f_equal; lia.
Qed.

(** The entry of key [k] in the dictionary built from [paths]: the reversals
    of the paths that end in the negation of [k], in their order. *)
Lemma for_each_dict_append (paths : list path) (d : gmap Z (list path)) :
  (∀ p, p ∈ paths → p ≠ []) →
  ∃ d', for_each dict_append d paths = Ret d'
    ∧ ∀ k, d' !! k
           = match d !! k,
                   reverse_path <$> filter (λ p, last p = Some (- k)) paths
             with
             | None, [] => None
             | old, new => Some (default [] old ++ new)
             end.
Proof.
  revert d. induction paths as [|p paths IH]; intros d Hne.
  - exists d. split; [reflexivity|]. intros k. simpl.
    destruct (d !! k); simpl; [by rewrite app_nil_r|done].
  - destruct (reverse_path p) as [|k0 r] eqn:Er.
    { exfalso. apply (Hne p); [by left|].
      apply (f_equal reverse_path) in Er.
      by rewrite reverse_path_twice in Er. }
    assert (last p = Some (- k0)) as Hlast.
    { apply reverse_path_head. by rewrite Er. }
    assert (dict_append d p
            = Ret (<[k0 := default [] (d !! k0) ++ [k0 :: r]]> d)) as Hstep.
    { unfold dict_append. by rewrite Er. }
    simpl. rewrite Hstep.
    destruct (IH (<[k0 := default [] (d !! k0) ++ [k0 :: r]]> d))
      as (d' & Hd' & Hlook).
    { intros q Hq. apply Hne. by right. }
    exists d'. split; [exact Hd'|]. intros k. rewrite Hlook, filter_cons.
    destruct (decide (k = k0)) as [->|Hk].
    + rewrite lookup_insert_eq, decide_True by done.
      rewrite fmap_cons, Er. simpl.
      destruct (reverse_path <$> filter _ paths) eqn:E;
        destruct (d !! k0); simpl; by rewrite <- ?app_assoc.
    + rewrite lookup_insert_ne by done.
      rewrite decide_False; [done|].
      rewrite Hlast. intros [= E]. lia.
Qed.

(** X3: when no path is empty, [build_path_dictionary] returns a dictionary
    whose entry for a key [k] is the list of the reversals of the paths that
    end in the negation of [k], in the order of the paths; a key that no path
    ends in the negation of has no entry. *)
Theorem build_path_dictionary_lookup (paths : list path) :
  (∀ p, p ∈ paths → p ≠ []) →
  ∃ d, build_path_dictionary paths = Ret d
    ∧ ∀ k, d !! k
           = match reverse_path
                   <$> filter (λ p, last p = Some (- k)) paths
             with
             | [] => None
             | parts => Some parts
             end.
Proof.
  intros Hne. destruct (for_each_dict_append paths ∅ Hne) as (d & Hd & Hlook).
  exists d. split; [done|]. intros k. rewrite Hlook, lookup_empty.
  by destruct (reverse_path <$> filter _ paths).
Qed.

Lemma build_path_dictionary_lookup_witness :
  ∃ d, build_path_dictionary [[1; 6; 7]; [1; 4]; [1; 5; 7]] = Ret d
    ∧ ∀ k, d !! k
           = match reverse_path
                   <$> filter (λ p, last p = Some (- k))
                         [[1; 6; 7]; [1; 4]; [1; 5; 7]]
             with
             | [] => None
             | parts => Some parts
             end.
Proof.
  apply (build_path_dictionary_lookup [[1; 6; 7]; [1; 4]; [1; 5; 7]]).
  intros p Hp. rewrite !elem_of_cons, elem_of_nil in Hp.
  destruct Hp as [->|[->|[->|[]]]]; discriminate.
Defined.

(** X4: [build_path_dictionary] raises [IndexError] when one of the paths is
    empty: the reversed path has no first segment to file it under. *)
Theorem build_path_dictionary_empty_path (paths : list path) :
  [] ∈ paths → build_path_dictionary paths = Raise IndexError.
Proof.
  unfold build_path_dictionary. generalize (∅ : gmap Z (list path)).
  induction paths as [|p paths IH]; intros d Hin.
  - by apply elem_of_nil in Hin.
  - simpl. destruct (reverse_path p) as [|k r] eqn:Er.
    + assert (dict_append d p = Raise IndexError) as ->; [|done].
      unfold dict_append. by rewrite Er.
    + assert (dict_append d p
              = Ret (<[k := default [] (d !! k) ++ [k :: r]]> d)) as ->.
      { unfold dict_append. by rewrite Er. }
      apply IH. apply elem_of_cons in Hin as [<-|Hin]; [done|done].
Qed.

Lemma build_path_dictionary_empty_path_witness :
  build_path_dictionary [[1; 6]; []; [1; 4]] = Raise IndexError.
Proof.
  apply (build_path_dictionary_empty_path [[1; 6]; []; [1; 4]]).
  right. left.
Defined.

(** ** Exceptions of the loops *)

(** A [for] loop either ends with a state that satisfies the invariant or
    stops at the first turn that does not return, with the outcome of that
    turn. *)
Lemma for_each_cases {S B} (I : S → Prop) (body : S → B → outcome S)
    (l : list B) (s : S) :
  I s →
  (∀ s b s', b ∈ l → I s → body s b = Ret s' → I s') →
  (∃ res, for_each body s l = Ret res ∧ I res)
  ∨ (∃ s0 b, b ∈ l ∧ I s0 ∧ for_each body s l = body s0 b
             ∧ ∀ r, body s0 b ≠ Ret r).
Proof.
  revert s. induction l as [|b l IH]; intros s Hs Hbody; simpl.
  - left. by exists s.
  - destruct (body s b) as [s'| |] eqn:Hb; simpl.
    + destruct (IH s') as [Hret|(s0 & b0 & Hb0 & Hs0 & Heq & Hnot)].
      * eapply Hbody; [by left|done..].
      * intros ? ? ? ?. apply Hbody. by right.
      * by left.
      * right. exists s0, b0. split; [by right|done].
    + right. exists s, b. split; [by left|]. split; [done|].
      rewrite Hb. split; [done|]. by intros r.
    + right. exists s, b. split; [by left|]. split; [done|].
      rewrite Hb. split; [done|]. by intros r.
Qed.

Section AllPathsOutcome.
Context `{Imports}.

(** A turn of the loop of [all_paths] on a working path that is not empty
    returns, with working paths that are not empty, or raises
    [TooManyPaths]. *)
Lemma all_paths_visit_outcome graph end_ min_length max_length sed st wp :
  wp ≠ [] → Forall (λ p : path, p ≠ []) st.1 →
  (∃ st', all_paths_visit graph end_ min_length max_length sed st wp = Ret st'
          ∧ Forall (λ p : path, p ≠ []) st'.1)
  ∨ all_paths_visit graph end_ min_length max_length sed st wp
    = Raise TooManyPaths.
Proof.
  intros Hwp Hst. destruct st as [new finals]. unfold all_paths_visit.
  unfold last_item. destruct (last wp) as [last_seg|] eqn:Hlast.
  2:{ by apply last_None in Hlast. }
  simpl. destruct (decide (last_seg = end_)).
  - destruct (decide (min_length ≤ _)); [|left; by eexists].
    destruct (decide (_ < _)); [by right|left; by eexists].
  - destruct (decide (_ ≤ max_length)); [|left; by eexists].
    destruct (forward_links graph !! last_seg); [|left; by eexists].
    left. eexists. split; [done|]. simpl.
    apply Forall_app. split; [done|].
    apply Forall_fmap, Forall_forall. intros next_seg _. simpl.
    by destruct wp.
Qed.



Lemma all_paths_loop_cons fuel graph end_ min_length max_length sed wp
    working finals :
  all_paths_loop (S fuel) graph end_ min_length max_length sed
    (wp :: working) finals
  = (st ← for_each (all_paths_visit graph end_ min_length max_length sed)
            ([], finals) (wp :: working);
     if decide (ALL_PATH_SEARCH_MAX_WORKING_PATHS settings
                  < Z.of_nat (length (wp :: working)))
     then Raise TooManyPaths
     else all_paths_loop fuel graph end_ min_length max_length sed
            st.1 st.2).
Proof. reflexivity. Qed.

(** X6: when the start anchor has more successors than the ceiling on
    working paths (and at least one), [all_paths] gives up with
    [TooManyPaths] at the end of its first round. *)
Theorem all_paths_too_many_successors fuel graph start end_ min_length
    target_length max_length succs sed :
  forward_links graph !! start = Some succs → succs ≠ [] →
  start_end_depth graph start end_ = Ret sed →
  ALL_PATH_SEARCH_MAX_WORKING_PATHS settings < Z.of_nat (length succs) →
  all_paths (S fuel) graph start end_ min_length target_length max_length
    = Raise TooManyPaths.
Proof.
  intros Hfl Hne Hsed Hmax. unfold all_paths. rewrite Hfl, Hsed.
  rewrite bind_Ret_l.
  destruct succs as [|x succs]; [done|].
  rewrite fmap_cons, all_paths_loop_cons.
  assert (Forall (λ p : path, p ≠ []) ([x] :: ((λ x, [x]) <$> succs)))
    as Hw.
  { constructor; [done|]. apply Forall_fmap, Forall_forall. by intros y _. }
  destruct (for_each_cases (λ st : list path * list path,
                              Forall (λ p : path, p ≠ []) st.1)
              (all_paths_visit graph end_ min_length max_length sed)
              ([x] :: ((λ x, [x]) <$> succs)) ([], []))
    as [(st & -> & _)|(s0 & b & Hb & Hs0 & -> & Hnot)].
  - constructor.
  - intros s b s' Hb Hs Hv.
    destruct (all_paths_visit_outcome graph end_ min_length max_length sed
                s b) as [(st' & Hst' & Hne')|Hr]; [|done| |].
    + by eapply Forall_forall in Hw.
    + rewrite Hst' in Hv. by injection Hv as <-.
    + by rewrite Hr in Hv.
  - rewrite bind_Ret_l, decide_True; [done|].
    rewrite length_cons, length_fmap. by rewrite length_cons in Hmax.
  - destruct (all_paths_visit_outcome graph end_ min_length max_length sed
                s0 b) as [(st' & Hst' & _)|Hr]; [|done| |].
    + by eapply Forall_forall in Hw.
    + by apply Hnot in Hst'.
    + by rewrite Hr.
Qed.

(** X7: a path returned by [all_paths] connects the anchors: the start
    anchor, the references of the path and the end anchor, in this order,
    follow the adjacency map. *)
Theorem all_paths_connects fuel graph start end_ min_length target_length
    max_length res q :
  all_paths fuel graph start end_ min_length target_length max_length
    = Ret res →
  q ∈ res →
  is_walk graph (start :: q ++ [end_]).
Proof.
  intros Hres Hq.
  eapply (all_paths_invariant (λ _ p, is_walk graph (start :: p)))
    in Hres as (sed & _ & _ & Hwalk); [done| | |done].
  - intros _ succs x Hfl Hx i a b Hi Hj.
    destruct i as [|i]; [|by destruct i].
    simpl in Hi, Hj. injection Hi as <-. injection Hj as <-.
    unfold linked. by rewrite Hfl.
  - intros _ p last_seg nexts n Hp Hlast _ _ Hfl Hn _.
    change (start :: p ++ [n]) with ((start :: p) ++ [n]).
    apply is_walk_app; [done|apply is_walk_singleton|].
    intros a b Ha [= <-].
    assert (last (start :: p) = Some last_seg) as Hl.
    { apply last_Some in Hlast as [p' ->].
      by rewrite app_comm_cons, last_snoc. }
    rewrite Hl in Ha. injection Ha as <-.
    unfold linked. by rewrite Hfl.
Qed.

(** X8: every path returned by [all_paths] reaches [min_length], and every
    returned path that is not empty stays within [max_length]. *)
Theorem all_paths_lengths fuel graph start end_ min_length target_length
    max_length res q :
  all_paths fuel graph start end_ min_length target_length max_length
    = Ret res →
  q ∈ res →
  min_length ≤ get_path_length graph q
  ∧ (q ≠ [] → get_path_length graph q ≤ max_length).
Proof.
  intros Hres Hq.
  destruct (all_paths_length_window _ _ _ _ _ _ _ _ Hres q Hq) as [Hmin Hmax].
  split; [done|]. intros Hne. by destruct Hmax.
Qed.
End AllPathsOutcome.


Lemma all_paths_too_many_successors_witness :
  all_paths (H:=tight_imports) 1 two_path_graph 1 2 8 10 13
  = Raise TooManyPaths.
Proof.
  apply (all_paths_too_many_successors (H:=tight_imports) 0 two_path_graph
           1 2 8 10 13 [3; 4] (mean_depth 1 1 1 1)).
  - vm_compute. reflexivity.
  - discriminate.
  - vm_compute. reflexivity.
  - vm_compute. reflexivity.
Defined.

Lemma all_paths_connects_witness : is_walk loop_graph (1 :: [3; 1; 3] ++ [2]).
Proof.
  apply (all_paths_connects (H:=two_path_imports) 20 loop_graph 1 2 0 30 100
           [[3]; [3; 1; 3]]).
  - vm_compute. reflexivity.
  - right. left.
Defined.

Lemma all_paths_lengths_witness :
  0 ≤ get_path_length loop_graph [3; 1; 3]
  ∧ ([3; 1; 3] ≠ [] → get_path_length loop_graph [3; 1; 3] ≤ 100).
Proof.
  apply (all_paths_lengths (H:=two_path_imports) 20 loop_graph 1 2 0 30 100
           [[3]; [3; 1; 3]]).
  - vm_compute. reflexivity.
  - right. left.
Defined.

(** ** More on [cull_paths] *)

Lemma py_min_spec (l : list Z) (m : Z) :
  py_min l = Some m → m ∈ l ∧ ∀ x, x ∈ l → m ≤ x.
Proof.
  destruct l as [|a l]; [done|]. simpl. intros [= <-].
  revert a. induction l as [|b l IH]; intros a; simpl.
  - split; [by left|]. intros x Hx. apply list_elem_of_singleton in Hx. lia.
  - destruct (IH (Z.min a b)) as [Hin Hle]. split.
    + apply elem_of_cons in Hin as [Heq|Hin]; [|by right; right].
      rewrite Heq. destruct (Z.min_spec a b) as [[_ ->]|[_ ->]];
        [by left|right; by left].
    + intros x Hx. apply elem_of_cons in Hx as [->|Hx].
      * specialize (Hle (Z.min a b)). pose proof (Hle ltac:(by left)). lia.
      * apply elem_of_cons in Hx as [->|Hx].
        -- specialize (Hle (Z.min a b)). pose proof (Hle ltac:(by left)). lia.
        -- apply Hle. by right.
Qed.

Lemma common_start_from_prefix (paths : list path) (i n : nat) (p : path) :
  p ∈ paths → common_start_from paths i n `prefix_of` drop i p.
Proof.
  intros Hp. revert i. induction n as [|n IH]; intros i; simpl.
  - apply prefix_nil.
  - destruct (paths !! 0%nat ≫= (.!! i)) as [c|]; [|apply prefix_nil].
    destruct (forallb _ paths) eqn:Hall; [|apply prefix_nil].
    rewrite forallb_forall in Hall.
    specialize (Hall p). rewrite <- list_elem_of_In in Hall.
    specialize (Hall Hp). apply bool_decide_eq_true in Hall.
    rewrite (drop_S _ _ _ Hall). apply prefix_cons, IH.
Qed.

Lemma common_start_from_longest (paths : list path) (i n : nat) (l : path) :
  paths ≠ [] → (length l ≤ n)%nat →
  (∀ p, p ∈ paths → l `prefix_of` drop i p) →
  l `prefix_of` common_start_from paths i n.
Proof.
  intros Hne. revert i n. induction l as [|c l IH]; intros i n Hlen Hl.
  - apply prefix_nil.
  - destruct n as [|n]; [simpl in Hlen; lia|]. simpl.
    assert (∀ p, p ∈ paths → p !! i = Some c ∧ l `prefix_of` drop (S i) p)
      as Hc.
    { intros p Hp. destruct (Hl p Hp) as [k Hk].
      assert (p !! i = Some c) as Hi.
      { rewrite <- (Nat.add_0_r i), <- lookup_drop, Hk. done. }
      split; [done|]. exists k.
      rewrite (drop_S _ _ _ Hi) in Hk. by injection Hk. }
    assert (∃ p0, paths !! 0%nat = Some p0 ∧ p0 ∈ paths) as (p0 & E0 & Hin0).
    { destruct paths as [|p0 paths]; [done|]. exists p0. split; [done|].
      by left. }
    destruct (Hc p0 Hin0) as [Hp0 _].
    assert (paths !! 0%nat ≫= (.!! i) = Some c) as ->.
    { by rewrite E0. }
    assert (forallb (λ p : path, bool_decide (p !! i = Some c)) paths = true)
      as ->.
    { apply forallb_forall. intros p Hp. apply list_elem_of_In in Hp.
      apply bool_decide_eq_true. by apply Hc. }
    apply prefix_cons, IH.
    + simpl in Hlen. lia.
    + intros p Hp. by apply Hc.
Qed.

Section CullMore.
Context `{Imports}.

(** X9: the common start that [cull_paths] computes is the longest common
    prefix of the paths: it is a prefix of every path, and every list that is
    a prefix of every path is a prefix of it. *)
Theorem common_start_is_longest_common_prefix (paths : list path)
    (smallest_seg_count : Z) :
  min_item ((λ x : path, Z.of_nat (length x)) <$> paths)
    = Ret smallest_seg_count →
  (∀ p, p ∈ paths →
     common_start_from paths 0 (Z.to_nat smallest_seg_count) `prefix_of` p)
  ∧ (∀ l : path, (∀ p, p ∈ paths → l `prefix_of` p) →
       l `prefix_of`
         common_start_from paths 0 (Z.to_nat smallest_seg_count)).
Proof.
  unfold min_item.
  destruct (py_min _) as [m|] eqn:Hmin; [|done]. intros [= <-].
  apply py_min_spec in Hmin as [Hin Hle]. split.
  - intros p Hp. rewrite <- (drop_0 p) at 1.
    by apply common_start_from_prefix.
  - intros l Hl. apply common_start_from_longest.
    + intros ->. by apply elem_of_nil in Hin.
    + apply list_elem_of_fmap in Hin as (p & -> & Hp).
      rewrite Nat2Z.id. apply prefix_length. by apply Hl.
    + intros p Hp. rewrite drop_0. by apply Hl.
Qed.

Lemma by_score_desc_total (x y : path * Q) :
  by_score_desc x y = false → by_score_desc y x = true.
Proof.
  unfold by_score_desc. rewrite bool_decide_eq_false, bool_decide_eq_true.
  intros Hn. apply Qlt_le_weak. by apply Qnot_le_lt.
Qed.

Lemma by_score_desc_trans (x y z : path * Q) :
  by_score_desc x y = true → by_score_desc y z = true →
  by_score_desc x z = true.
Proof.
  unfold by_score_desc. rewrite !bool_decide_eq_true.
  intros Hxy Hyz. by eapply Qle_trans.
Qed.

(** Filtering a sorted list by a property that passes from an element to the
    ones before it keeps a prefix of the list. *)
Lemma filter_sorted_prefix {A} (R : relation A) (P : A → Prop)
    `{∀ x, Decision (P x)} (l : list A) :
  (∀ x y, R x y → P y → P x) → StronglySorted R l →
  filter P l `prefix_of` l.
Proof.
  intros Hup. induction 1 as [|x l Hs IH Hx]; [done|].
  rewrite filter_cons. destruct (decide (P x)) as [Hp|Hp].
  - by apply prefix_cons.
  - assert (filter P l = []) as ->; [|apply prefix_nil].
    clear IH Hs. induction l as [|y l IHl]; [done|].
    apply Forall_cons in Hx as [Hxy Hx].
    rewrite filter_cons, decide_False; [by apply IHl|].
    intros Hpy. apply Hp. by eapply Hup.
Qed.

Lemma StronglySorted_weaken {A} (R1 R2 : relation A) (l : list A) :
  (∀ x y, R1 x y → R2 x y) → StronglySorted R1 l → StronglySorted R2 l.
Proof.
  intros Himpl. induction 1 as [|x l Hs IH Hx]; constructor; [done|].
  eapply Forall_impl; [exact Hx|]. intros y. apply Himpl.
Qed.

Lemma cull_threshold_loop_prefix fuel best_score scored threshold surviving :
  StronglySorted (λ x y : path * Q, by_score_desc x y = true) scored →
  cull_threshold_loop fuel best_score scored threshold = Ret surviving →
  surviving `prefix_of` scored
  ∧ Z.of_nat (length surviving)
    ≤ PROGRESSIVE_PATH_SEARCH_MAX_WORKING_PATHS settings `div` 2.
Proof.
  intros Hs. revert threshold.
  induction fuel as [|fuel IH]; intros threshold; simpl; [done|].
  destruct (decide _) as [|Hle]; [apply IH|].
  intros [= <-]. split; [|lia].
  eapply filter_sorted_prefix; [|done].
  intros x y Hxy Hy. simpl in *. unfold by_score_desc in Hxy.
  apply bool_decide_eq_true in Hxy. by eapply Qle_trans.
Qed.

(** X10: [cull_paths] returns the paths that score best: the paths that
    align are sorted by scaled score, best first, and the result is a prefix
    of that list, so no path that is left out scores higher than a path that
    is kept. *)
Theorem cull_paths_keeps_the_best fuel graph paths sequence scoring_scheme
    expected res :
  cull_paths fuel graph paths sequence scoring_scheme expected = Ret res →
  ∃ scored,
    cull_scored_paths graph paths sequence scoring_scheme = Ret scored
    ∧ StronglySorted (λ x y : path * Q, (y.2 <= x.2)%Q) scored
    ∧ res `prefix_of` (fst <$> scored).
Proof.
  unfold cull_paths. intros Hres.
  apply bind_Ret_inv in Hres as (scored & Hscored & Hres).
  exists scored. split; [done|].
  assert (StronglySorted (λ x y : path * Q, by_score_desc x y = true) scored)
    as Hs.
  { unfold cull_scored_paths in Hscored.
    apply bind_Ret_inv in Hscored as (? & _ & Hscored).
    apply bind_Ret_inv in Hscored as (? & _ & Hscored).
    apply bind_Ret_inv in Hscored as (? & _ & Hscored).
    injection Hscored as <-.
    apply py_sorted_sorted;
      [apply by_score_desc_total|apply by_score_desc_trans]. }
  split.
  { eapply StronglySorted_weaken; [|exact Hs].
    intros x y Hxy. by apply bool_decide_eq_true in Hxy. }
  destruct scored as [|best rest] eqn:E.
  { injection Hres as <-. apply prefix_nil. }
  rewrite <- E in *. clear E.
  destruct (decide _); [injection Hres as <-; apply prefix_nil|].
  apply bind_Ret_inv in Hres as (surviving & Hloop & Hres).
  apply cull_threshold_loop_prefix in Hloop as [[k ->] _]; [|done].
  destruct (decide _); injection Hres as <-.
  - etrans; [apply prefix_take|]. rewrite fmap_app. by eexists.
  - rewrite fmap_app. by eexists.
Qed.

(** [cull_paths] returns nothing or at most half the ceiling on working
    paths. *)
Lemma cull_paths_bound fuel graph paths sequence scoring_scheme expected res :
  cull_paths fuel graph paths sequence scoring_scheme expected = Ret res →
  res = [] ∨ Z.of_nat (length res)
             ≤ PROGRESSIVE_PATH_SEARCH_MAX_WORKING_PATHS settings `div` 2.
Proof.
  unfold cull_paths. intros Hres.
  apply bind_Ret_inv in Hres as (scored & _ & Hres).
  destruct scored as [|best rest] eqn:E; [left; by injection Hres as <-|].
  rewrite <- E in *. clear E.
  destruct (decide _); [left; by injection Hres as <-|].
  apply bind_Ret_inv in Hres as (surviving & Hloop & Hres).
  assert (Z.of_nat (length surviving)
          ≤ PROGRESSIVE_PATH_SEARCH_MAX_WORKING_PATHS settings `div` 2)
    as Hbound.
  { clear Hres. revert Hloop.
    generalize (PROGRESSIVE_PATH_SEARCH_SCORE_FRACTION settings).
    induction fuel as [|fuel IH]; intros threshold; simpl; [done|].
    destruct (decide _); [apply IH|]. intros [= <-]. lia. }
  right. destruct (decide _); injection Hres as <-.
  - rewrite length_take, length_fmap. lia.
  - by rewrite length_fmap.
Qed.

(** X11: whenever [cull_paths] returns, it returns fewer paths than it was
    given, at most half the ceiling on working paths, and each of them is one
    of the given paths without its first segment. *)
Theorem cull_paths_shrinks fuel graph paths sequence scoring_scheme expected
    res :
  cull_paths fuel graph paths sequence scoring_scheme expected = Ret res →
  (length res < length paths)%nat
  ∧ (res = [] ∨ Z.of_nat (length res)
                ≤ PROGRESSIVE_PATH_SEARCH_MAX_WORKING_PATHS settings `div` 2)
  ∧ ∀ r, r ∈ res → ∃ p, p ∈ paths ∧ r = drop 1 p.
Proof.
  intros Hres.
  destruct (cull_paths_returns graph _ _ _ _ _ _ Hres) as [Htail Hlen].
  split; [done|]. split; [|done]. by eapply cull_paths_bound.
Qed.
End CullMore.

Lemma common_start_is_longest_common_prefix_witness :
  (∀ p, p ∈ [[1; 6; 7; 4]; [1; 6; 7]; [1; 6; 5; 2]] →
     common_start_from [[1; 6; 7; 4]; [1; 6; 7]; [1; 6; 5; 2]] 0 (Z.to_nat 3)
       `prefix_of` p)
  ∧ (∀ l : path,
       (∀ p, p ∈ [[1; 6; 7; 4]; [1; 6; 7]; [1; 6; 5; 2]] → l `prefix_of` p) →
       l `prefix_of`
         common_start_from [[1; 6; 7; 4]; [1; 6; 7]; [1; 6; 5; 2]] 0
           (Z.to_nat 3)).
Proof.
  apply (common_start_is_longest_common_prefix
           [[1; 6; 7; 4]; [1; 6; 7]; [1; 6; 5; 2]] 3).
  reflexivity.
Defined.

Lemma cull_paths_keeps_the_best_witness :
  ∃ scored,
    cull_scored_paths (H:=junction_imports) junction_graph
      [[1; 6; 7; 3]; [1; 6; 7; 4]; [1; 6; 7; 2]] [base_A] tt = Ret scored
    ∧ StronglySorted (λ x y : path * Q, (y.2 <= x.2)%Q) scored
    ∧ [[6; 7; 3]] `prefix_of` (fst <$> scored).
Proof.
  apply (cull_paths_keeps_the_best (H:=junction_imports) 20 junction_graph
           [[1; 6; 7; 3]; [1; 6; 7; 4]; [1; 6; 7; 2]] [base_A] tt 90%Q
           [[6; 7; 3]]).
  vm_compute. reflexivity.
Defined.

Lemma cull_paths_shrinks_witness :
  (length [[6; 7; 3]]
   < length [[1; 6; 7; 3]; [1; 6; 7; 4]; [1; 6; 7; 2]])%nat
  ∧ ([[6; 7; 3]] = []
     ∨ Z.of_nat (length [[6; 7; 3]])
       ≤ PROGRESSIVE_PATH_SEARCH_MAX_WORKING_PATHS
           (settings (Imports:=junction_imports)) `div` 2)
  ∧ ∀ r, r ∈ [[6; 7; 3]] →
      ∃ p, p ∈ [[1; 6; 7; 3]; [1; 6; 7; 4]; [1; 6; 7; 2]] ∧ r = drop 1 p.
Proof.
  apply (cull_paths_shrinks (H:=junction_imports) 20 junction_graph
           [[1; 6; 7; 3]; [1; 6; 7; 4]; [1; 6; 7; 2]] [base_A] tt 90%Q
           [[6; 7; 3]]).
  vm_compute. reflexivity.
Defined.

(** ** More on [advance_paths] and [progressive_path_find] *)

Section AdvanceMore.
Context `{Imports}.

(** The loop of [advance_paths] ends with no working path or with more than
    the ceiling. *)
Lemma advance_loop_exit fuel graph opp flip sed max_length working finals st :
  advance_loop fuel graph opp flip sed max_length working finals = Ret st →
  st.1 = []
  ∨ PROGRESSIVE_PATH_SEARCH_MAX_WORKING_PATHS settings
    < Z.of_nat (length st.1).
Proof.
  revert working finals.
  induction fuel as [|fuel IH]; intros working finals; simpl.
  - destruct (decide _) as [|Hn]; [done|]. intros [= <-]. simpl.
    destruct working; [by left|right]. simpl in *. lia.
  - destruct (decide _) as [|Hn].
    + intros Hres. apply bind_Ret_inv in Hres as (shortest & _ & Hres).
      apply bind_Ret_inv in Hres as (st1 & _ & Hres). by eapply IH.
    + intros [= <-]. simpl.
      destruct working; [by left|right]. simpl in *. lia.
Qed.

(** X12: the frontier that [advance_paths] returns is empty or went through
    [cull_paths]: it never has more paths than half the ceiling on working
    paths. *)
Theorem advance_paths_frontier_bound fuel working opp shortest_opposite
    finals flip sequence scoring_scheme expected graph sed total_max_length
    st :
  advance_paths fuel working opp shortest_opposite finals flip sequence
    scoring_scheme expected graph sed total_max_length = Ret st →
  st.1 = []
  ∨ Z.of_nat (length st.1)
    ≤ PROGRESSIVE_PATH_SEARCH_MAX_WORKING_PATHS settings `div` 2.
Proof.
  unfold advance_paths. intros Hres.
  apply bind_Ret_inv in Hres as (st1 & Hloop & Hres).
  apply advance_loop_exit in Hloop.
  destruct (decide _) as [Hgt|Hle].
  - apply bind_Ret_inv in Hres as (culled & Hcull & Hres).
    injection Hres as <-. simpl. by eapply cull_paths_bound.
  - injection Hres as <-. destruct Hloop as [Hnil|Hgt]; [by left|lia].
Qed.

Lemma advance_next_finals graph opp flip max_length p st n :
  st.2 ⊆ (advance_next graph opp flip max_length p st n).2.
Proof.
  destruct st as [new finals]. unfold advance_next. simpl.
  assert (finals ⊆
            match opp !! n with
            | Some final_parts =>
              foldl (λ (fs : gset path) final_part,
                       let final_path := p ++ final_part in
                       let final_path :=
                         if flip then reverse_path final_path
                         else final_path in
                       {[ final_path ]} ∪ fs)
                    finals final_parts
            | None => finals
            end) as Hsub.
  { destruct (opp !! n) as [parts|]; [|done].
    apply (foldl_invariant (λ fs : gset path, finals ⊆ fs)); [done|].
    intros fs part _ Hfs. simpl. set_solver. }
  by destruct (decide _).
Qed.

Lemma advance_loop_finals fuel graph opp flip sed max_length working finals
    st :
  advance_loop fuel graph opp flip sed max_length working finals = Ret st →
  finals ⊆ st.2.
Proof.
  revert working finals.
  induction fuel as [|fuel IH]; intros working finals; simpl.
  - destruct (decide _); [done|]. by intros [= <-].
  - destruct (decide _); [|by intros [= <-]].
    intros Hres. apply bind_Ret_inv in Hres as (shortest & _ & Hres).
    apply bind_Ret_inv in Hres as (st1 & Hfor & Hres).
    apply IH in Hres. etrans; [|exact Hres].
    eapply (for_each_invariant (λ s : list path * gset path, finals ⊆ s.2));
      [| |exact Hfor]; [done|].
    intros s p s' _ Hs. unfold advance_visit.
    destruct (decide _); [by intros [= <-]|].
    intros Hv. apply bind_Ret_inv in Hv as (last_seg & _ & Hv).
    destruct (forward_links graph !! last_seg); [|by injection Hv as <-].
    injection Hv as <-.
    apply (foldl_invariant (λ s' : list path * gset path, finals ⊆ s'.2));
      [done|].
    intros s1 next_seg _ Hs1. etrans; [exact Hs1|]. apply advance_next_finals.
Qed.

(** X13: [advance_paths] only adds to the set of final paths: every final
    path found before the call is in the set it returns. *)
Theorem advance_paths_keeps_final_paths fuel working opp shortest_opposite
    finals flip sequence scoring_scheme expected graph sed total_max_length
    st :
  advance_paths fuel working opp shortest_opposite finals flip sequence
    scoring_scheme expected graph sed total_max_length = Ret st →
  finals ⊆ st.2.
Proof.
  unfold advance_paths. intros Hres.
  apply bind_Ret_inv in Hres as (st1 & Hloop & Hres).
  apply advance_loop_finals in Hloop.
  destruct (decide _).
  - apply bind_Ret_inv in Hres as (culled & _ & Hres). by injection Hres as <-.
  - by injection Hres as <-.
Qed.

(** X14: every path returned by [progressive_path_find] has a length within
    [min_length] and [max_length], the empty path included. *)
Theorem progressive_path_find_lengths fuel graph start end_ min_length
    max_length sequence scoring_scheme expected res q :
  progressive_path_find fuel graph start end_ min_length max_length sequence
    scoring_scheme expected = Ret res →
  q ∈ res →
  min_length ≤ get_path_length graph q
  ∧ get_path_length graph q ≤ max_length.
Proof.
  unfold progressive_path_find. intros Hres Hq.
  apply bind_Ret_inv in Hres as (sed & _ & Hres).
  apply bind_Ret_inv in Hres as (finals & _ & Hres).
  injection Hres as <-. by apply list_elem_of_filter in Hq as [Hq _].
Qed.
End AdvanceMore.

Lemma advance_paths_frontier_bound_witness :
  [[6; 7; 3]] = []
  ∨ Z.of_nat (length [[6; 7; 3]])
    ≤ PROGRESSIVE_PATH_SEARCH_MAX_WORKING_PATHS
        (settings (Imports:=junction_imports)) `div` 2.
Proof.
  apply (advance_paths_frontier_bound (H:=junction_imports) 20 [[1]]
           {[2 := [[2]]]} 0 ∅ false [base_A] tt 90%Q junction_graph 1%Q 100
           ([[6; 7; 3]], {[ [1; 6; 7; 2] ]})).
  vm_compute. reflexivity.
Defined.

Lemma advance_paths_keeps_final_paths_witness :
  ({[ [1; 9; 2] ]} : gset path) ⊆ {[ [1; 6; 7; 2] ]} ∪ {[ [1; 9; 2] ]}.
Proof.
  refine (advance_paths_keeps_final_paths (H:=junction_imports) 20 [[1]]
            {[2 := [[2]]]} 0 {[ [1; 9; 2] ]} false [base_A] tt 90%Q
            junction_graph 1%Q 100
            ([[6; 7; 3]], {[ [1; 6; 7; 2] ]} ∪ {[ [1; 9; 2] ]}) _).
  vm_compute. reflexivity.
Defined.

Lemma progressive_path_find_lengths_witness :
  0 ≤ get_path_length junction_graph [7; 3; 7]
  ∧ get_path_length junction_graph [7; 3; 7] ≤ 100.
Proof.
  apply (progressive_path_find_lengths (H:=junction_imports) 20
           junction_graph 1 2 0 100 [base_A] tt 90%Q [[7; 3; 7]; [6; 7]]).
  - vm_compute. reflexivity.
  - left.
Defined.

(** ** More on [get_best_paths_for_seq] *)

Lemma bind_not_raise {A B} (m : outcome A) (f : A → outcome B) (e : exn) :
  m ≠ Raise e → (∀ a, f a ≠ Raise e) → m ≫= f ≠ Raise e.
Proof.
  intros Hm Hf. destruct m as [a|e'|]; [apply Hf| |discriminate].
  intros [= ->]. by apply Hm.
Qed.

Lemma for_each_not_raise {S B} (body : S → B → outcome S) (s : S)
    (l : list B) (e : exn) :
  (∀ s b, body s b ≠ Raise e) → for_each body s l ≠ Raise e.
Proof.
  intros Hbody. revert s. induction l as [|b l IH]; intros s; simpl; [done|].
  apply bind_not_raise; auto.
Qed.

Ltac no_raise :=
  repeat match goal with
         | |- (_ ≫= _) ≠ Raise _ => apply bind_not_raise; [|intros ?]
         | |- for_each _ _ _ ≠ Raise _ => apply for_each_not_raise; intros ? ?
         | |- (match ?x with _ => _ end) ≠ Raise _ => destruct x
         | |- mret _ ≠ Raise _ => discriminate
         | |- Ret _ ≠ Raise _ => discriminate
         | |- OutOfFuel ≠ Raise _ => discriminate
         | |- Raise _ ≠ Raise _ => discriminate
         end.

Section RankerMore.
Context `{Imports}.

Lemma start_end_depth_no_give_up graph start end_ :
  start_end_depth graph start end_ ≠ Raise TooManyPaths.
Proof. unfold start_end_depth, getitem. no_raise. Qed.

Lemma min_item_no_give_up (l : list Z) : min_item l ≠ Raise TooManyPaths.
Proof. unfold min_item. no_raise. Qed.

Lemma build_path_dictionary_no_give_up (paths : list path) :
  build_path_dictionary paths ≠ Raise TooManyPaths.
Proof. unfold build_path_dictionary, dict_append. no_raise. Qed.

Lemma cull_paths_no_give_up fuel graph paths sequence scoring_scheme
    expected :
  cull_paths fuel graph paths sequence scoring_scheme expected
  ≠ Raise TooManyPaths.
Proof.
  unfold cull_paths, cull_scored_paths.
  apply bind_not_raise.
  - no_raise; apply min_item_no_give_up.
  - intros scored. destruct scored as [|best rest]; [done|].
    destruct (decide _); [done|].
    apply bind_not_raise; [|intros; by destruct (decide _)].
    generalize (PROGRESSIVE_PATH_SEARCH_SCORE_FRACTION settings).
    generalize (best :: rest).
    induction fuel as [|fuel IH]; intros scored threshold; simpl; [done|].
    destruct (decide _); [apply IH|done].
Qed.

Lemma advance_paths_no_give_up fuel working opp shortest_opposite finals flip
    sequence scoring_scheme expected graph sed total_max_length :
  advance_paths fuel working opp shortest_opposite finals flip sequence
    scoring_scheme expected graph sed total_max_length ≠ Raise TooManyPaths.
Proof.
  unfold advance_paths. apply bind_not_raise.
  - generalize (total_max_length - shortest_opposite). intros max_length.
    revert working finals.
    induction fuel as [|fuel IH]; intros working finals; simpl.
    + by destruct (decide _).
    + destruct (decide _); [|done].
      apply bind_not_raise; [apply min_item_no_give_up|intros shortest].
      apply bind_not_raise; [|intros st; apply IH].
      apply for_each_not_raise. intros s p. unfold advance_visit, last_item.
      no_raise.
  - intros st. destruct (decide _); [|done].
    apply bind_not_raise; [apply cull_paths_no_give_up|done].
Qed.

Lemma progressive_path_find_no_give_up fuel graph start end_ min_length
    max_length sequence scoring_scheme expected :
  progressive_path_find fuel graph start end_ min_length max_length sequence
    scoring_scheme expected ≠ Raise TooManyPaths.
Proof.
  unfold progressive_path_find.
  apply bind_not_raise; [apply start_end_depth_no_give_up|intros sed].
  apply bind_not_raise; [|done].
  generalize ([[start]]) ([[- end_]]) (∅ : gset path). generalize fuel at 1.
  intros rounds. induction rounds as [|rounds IH];
    intros forward reverse_ finals; simpl; [done|].
  apply bind_not_raise; [apply min_item_no_give_up|intros ?].
  apply bind_not_raise; [apply build_path_dictionary_no_give_up|intros ?].
  apply bind_not_raise; [apply advance_paths_no_give_up|intros [fw f1]].
  destruct fw as [|fp fw]; [done|].
  apply bind_not_raise; [apply min_item_no_give_up|intros ?].
  apply bind_not_raise; [apply build_path_dictionary_no_give_up|intros ?].
  apply bind_not_raise; [apply advance_paths_no_give_up|intros [rv f2]].
  destruct rv as [|rp rv]; [done|]. apply IH.
Qed.

(** X15: [TooManyPaths] never leaves [get_best_paths_for_seq]: the exception
    of the exhaustive search is caught, and nothing in the progressive search
    raises it. *)
Theorem get_best_paths_for_seq_catches_too_many_paths fuel graph start_seg
    end_seg target_length sequence scoring_scheme expected_scaled_score :
  get_best_paths_for_seq fuel graph start_seg end_seg target_length sequence
    scoring_scheme expected_scaled_score ≠ Raise TooManyPaths.
Proof.
  unfold get_best_paths_for_seq, find_paths.
  apply bind_not_raise; [|intros [paths flag]; done].
  destruct (all_paths _ _ _ _ _ _ _) as [paths|e|]; [done| |done].
  destruct e; try done.
  apply bind_not_raise; [apply progressive_path_find_no_give_up|done].
Qed.

(** X16: when a consensus sequence is given and the alignment fails for every
    path the search found, [get_best_paths_for_seq] returns the empty list,
    with the flag of the search that ran. *)
Theorem get_best_paths_for_seq_no_alignment fuel graph start_seg end_seg
    target_length sequence scoring_scheme expected_scaled_score paths flag :
  found_paths fuel graph start_seg end_seg target_length sequence
    scoring_scheme expected_scaled_score = Ret (paths, flag) →
  sequence ≠ [] →
  (∀ p, p ∈ paths →
     fully_global_alignment
       (extend_sequence graph start_seg end_seg sequence)
       (get_path_sequence graph p) scoring_scheme true 1000 = None) →
  get_best_paths_for_seq fuel graph start_seg end_seg target_length sequence
    scoring_scheme expected_scaled_score = Ret ([], flag).
Proof.
  intros Hf Hseq Hfail.
  rewrite (found_get_best_paths_for_seq _ _ _ _ _ _ _ _ _ _ Hf).
  assert (scored_candidates graph target_length
            (extend_sequence graph start_seg end_seg sequence)
            scoring_scheme paths = []) as ->; [|done].
  unfold scored_candidates.
  assert (∃ b rest,
            extend_sequence graph start_seg end_seg sequence = b :: rest)
    as (b & rest & Eext).
  { unfold extend_sequence. destruct sequence as [|a sequence]; [done|].
    destruct (py_slice _ _ _) as [|b front]; simpl; by eexists _, _. }
  rewrite Eext in *.
  assert (∀ l : list path, (∀ p, p ∈ l → p ∈ paths) →
            omap (score_path graph target_length (b :: rest) scoring_scheme) l
            = []) as Hnil.
  { induction l as [|p l IH]; intros Hl; [done|].
    change (omap ?f (p :: l))
      with (match f p with Some y => y :: omap f l | None => omap f l end).
    unfold score_path at 1. rewrite (Hfail p) by (apply Hl; by left).
    apply IH. intros q Hq. apply Hl. by right. }
  apply Hnil. intros p Hp. by apply elem_of_py_sorted in Hp.
Qed.

(** X17: every candidate returned by [get_best_paths_for_seq] carries a path
    that the search found, with the distance of its length from the target
    as its length discrepancy, and there are no more candidates than paths
    found. *)
Theorem get_best_paths_for_seq_candidates fuel graph start_seg end_seg
    target_length sequence scoring_scheme expected_scaled_score res flag :
  get_best_paths_for_seq fuel graph start_seg end_seg target_length sequence
    scoring_scheme expected_scaled_score = Ret (res, flag) →
  ∃ paths,
    found_paths fuel graph start_seg end_seg target_length sequence
      scoring_scheme expected_scaled_score = Ret (paths, flag)
    ∧ (length res ≤ length paths)%nat
    ∧ ∀ c, c ∈ res →
        cand_path c ∈ paths
        ∧ cand_disc c
          = Z.abs (get_path_length graph (cand_path c) - target_length).
Proof.
  intros Hres. apply get_best_paths_for_seq_found in Hres as (paths & Hf & ->).
  exists paths. split; [done|].
  set (scored := scored_candidates _ _ _ _ _).
  assert (rank_and_retain scored ⊆ scored
          ∧ (length (rank_and_retain scored) ≤ length scored)%nat)
    as [Hsub Hlen].
  { unfold rank_and_retain.
    pose proof (py_sorted_perm rank_le scored) as Hperm.
    destruct (py_sorted rank_le scored) as [|best rest] eqn:E.
    - split; [by intros x Hx; apply elem_of_nil in Hx|simpl; lia].
    - split.
      + intros x Hx. apply list_elem_of_filter in Hx as [_ Hx].
        by rewrite <- Hperm.
      + rewrite <- Hperm. apply length_filter. }
  split.
  - etrans; [exact Hlen|]. unfold scored, scored_candidates.
    etrans; [apply length_omap_le|]. by rewrite length_py_sorted.
  - intros c Hc. apply Hsub in Hc. unfold scored, scored_candidates in Hc.
    apply list_elem_of_omap in Hc as (p & Hp & Hc).
    apply elem_of_py_sorted in Hp. unfold score_path in Hc.
    destruct (extend_sequence _ _ _ _).
    + by injection Hc as <-.
    + destruct (fully_global_alignment _ _ _ _ _); [|done].
      by injection Hc as <-.
Qed.

End RankerMore.

Lemma get_best_paths_for_seq_no_alignment_witness :
  get_best_paths_for_seq (H:=failing_imports) 10 two_path_graph 1 2 10
    [base_A] tt 90%Q = Ret ([], false).
Proof.
  apply (get_best_paths_for_seq_no_alignment (H:=failing_imports) 10
           two_path_graph 1 2 10 [base_A] tt 90%Q [[3]; [4]] false).
  - vm_compute. reflexivity.
  - discriminate.
  - intros p _. reflexivity.
Defined.

Lemma get_best_paths_for_seq_candidates_witness :
  let res := [MkCandidate [3] 100%Q 0 50%Q; MkCandidate [4] 90%Q 0 100%Q] in
  ∃ paths,
    found_paths (H:=two_path_imports) 10 two_path_graph 1 2 10 [base_A] tt
      90%Q = Ret (paths, false)
    ∧ (length res ≤ length paths)%nat
    ∧ ∀ c, c ∈ res →
        cand_path c ∈ paths
        ∧ cand_disc c
          = Z.abs (get_path_length two_path_graph (cand_path c) - 10).
Proof.
  apply (get_best_paths_for_seq_candidates (H:=two_path_imports) 10
           two_path_graph 1 2 10 [base_A] tt 90%Q).
  vm_compute. reflexivity.
Defined.


(** ** When the loop of [cull_paths] ends *)

Lemma half_eq (x : Q) : (x / 2 == x * (1 # 2))%Q.
Proof. unfold Qdiv. reflexivity. Qed.

(** After [n] turns the gap to 1 is at most the first gap divided by
    [n + 1]. *)
Lemma tightened_gap (n : nat) (t : Q) :
  (t <= 1)%Q →
  (tightened n t <= 1)%Q
  ∧ ((1 - tightened n t) * inject_Z (Z.of_nat (S n)) <= 1 - t)%Q.
Proof.
  revert t. induction n as [|n IH]; intros t Ht.
  - simpl. split; [exact Ht|]. change (inject_Z (Z.of_nat 1)) with 1%Q. lra.
  - change (tightened (S n) t) with (tightened n (1 - (1 - t) / 2)%Q).
    pose proof (half_eq (1 - t)) as Ehalf.
    assert (1 - (1 - t) / 2 <= 1)%Q as Ht' by lra.
    destruct (IH _ Ht') as [Hle Hgap]. split; [exact Hle|].
    set (T := tightened n (1 - (1 - t) / 2)%Q) in *.
    replace (Z.of_nat (S (S n))) with (Z.of_nat (S n) + 1) by lia.
    rewrite inject_Z_plus. change (inject_Z 1) with 1%Q.
    assert (0 <= inject_Z (Z.of_nat (S n)) - 1)%Q as Hk.
    { replace (Z.of_nat (S n)) with (Z.of_nat n + 1) by lia.
      rewrite inject_Z_plus. change (inject_Z 1) with 1%Q.
      assert (0 <= inject_Z (Z.of_nat n))%Q.
      { change 0%Q with (inject_Z 0). rewrite <- Zle_Qle. lia. }
      lra. }
    set (k := inject_Z (Z.of_nat (S n))) in *.
    nra.
Qed.

Lemma tightened_above (n : nat) (t : Q) :
  (1 <= t)%Q → (1 <= tightened n t)%Q.
Proof.
  revert t. induction n as [|n IH]; intros t Ht; [exact Ht|].
  change (tightened (S n) t) with (tightened n (1 - (1 - t) / 2)%Q).
  apply IH. pose proof (half_eq (1 - t)) as Ehalf. lra.
Qed.

(** A score below the best one falls below the threshold after enough
    turns. *)
Lemma tightened_reaches (best s t : Q) :
  (0 <= best)%Q → (s < best)%Q →
  ∃ n, ∀ m, (n ≤ m)%nat → (s < best * tightened m t)%Q.
Proof.
  intros Hbest Hs.
  destruct (Qlt_le_dec t 1) as [Ht|Ht].
  - destruct (Qarchimedean (best * (1 - t) / (best - s))) as [p Hp].
    assert (best * (1 - t) / (best - s) * (best - s) == best * (1 - t))%Q
      as Hq.
    { field. lra. }
    assert (best * (1 - t) / (best - s) * (best - s)
            < (Z.pos p # 1) * (best - s))%Q as Hq'.
    { apply Qmult_lt_compat_r; [lra|exact Hp]. }
    clear Hp. rewrite Hq in Hq'. clear Hq.
    exists (Pos.to_nat p). intros m Hm.
    destruct (tightened_gap m t) as [Hle Hgap]; [lra|].
    assert (inject_Z (Z.pos p) <= inject_Z (Z.of_nat (S m)))%Q as Hpm.
    { rewrite <- Zle_Qle. lia. }
    change (Z.pos p # 1)%Q with (inject_Z (Z.pos p)) in Hq'.
    assert (0 < inject_Z (Z.of_nat (S m)))%Q as Hpos.
    { change 0%Q with (inject_Z 0). rewrite <- Zlt_Qlt. lia. }
    set (T := tightened m t) in *. set (k := inject_Z (Z.of_nat (S m))) in *.
    set (P := inject_Z (Z.pos p)) in *.
    nra.
  - exists 0%nat. intros m _. pose proof (tightened_above m t Ht). nra.
Qed.

Lemma tightened_reaches_all (best t : Q) (scored : list (path * Q)) :
  (0 <= best)%Q →
  ∃ n, ∀ m, (n ≤ m)%nat →
    ∀ sp, sp ∈ scored → (sp.2 < best)%Q → (sp.2 < best * tightened m t)%Q.
Proof.
  intros Hbest. induction scored as [|sp0 scored IH].
  - exists 0%nat. intros m _ sp Hsp. by apply elem_of_nil in Hsp.
  - destruct IH as [n2 Hn2].
    destruct (Qlt_le_dec sp0.2 best) as [Hlt|Hge].
    + destruct (tightened_reaches best sp0.2 t Hbest Hlt) as [n1 Hn1].
      exists (n1 `max` n2)%nat. intros m Hm sp Hsp Hs.
      apply elem_of_cons in Hsp as [->|Hsp].
      * apply Hn1. lia.
      * apply Hn2; [lia|done..].
    + exists n2. intros m Hm sp Hsp Hs.
      apply elem_of_cons in Hsp as [->|Hsp].
      * exfalso. by apply (Qlt_not_le _ _ Hs).
      * by apply Hn2.
Qed.

Lemma length_filter_impl_in {A} (P1 P2 : A → Prop) `{∀ x, Decision (P1 x)}
    `{∀ x, Decision (P2 x)} (l : list A) :
  (∀ x, x ∈ l → P1 x → P2 x) →
  (length (filter P1 l) ≤ length (filter P2 l))%nat.
Proof.
  induction l as [|x l IH]; intros Himpl; [done|].
  rewrite !filter_cons.
  assert (length (filter P1 l) ≤ length (filter P2 l))%nat as Hl.
  { apply IH. intros y Hy. apply Himpl. by right. }
  destruct (decide (P1 x)) as [H1|H1].
  - rewrite decide_True by (apply Himpl; [by left|done]). simpl. lia.
  - destruct (decide (P2 x)); simpl; lia.
Qed.

Section CullTermination.
Context `{Imports}.

Lemma cull_threshold_loop_returns (n fuel : nat) (best_score : Q)
    (scored : list (path * Q)) (threshold : Q) :
  (n < fuel)%nat →
  (∀ sp, sp ∈ scored → (sp.2 < best_score)%Q →
     (sp.2 < best_score * tightened n threshold)%Q) →
  Z.of_nat (length (filter (λ sp : path * Q, (best_score <= sp.2)%Q) scored))
    ≤ PROGRESSIVE_PATH_SEARCH_MAX_WORKING_PATHS settings `div` 2 →
  ∃ surviving,
    cull_threshold_loop fuel best_score scored threshold = Ret surviving.
Proof.
  intros Hfuel Hn Hties. revert fuel threshold Hfuel Hn.
  induction n as [|n IH]; intros fuel threshold Hfuel Hn;
    (destruct fuel as [|fuel]; [lia|]); simpl.
  - rewrite decide_False; [by eexists|].
    assert (length (filter (λ sp : path * Q,
                      (best_score * threshold <= sp.2)%Q) scored)
            ≤ length (filter (λ sp : path * Q, (best_score <= sp.2)%Q)
                        scored))%nat; [|lia].
    apply length_filter_impl_in. intros sp Hsp Hle. simpl in *.
    destruct (Qlt_le_dec sp.2 best_score) as [Hlt|Hge]; [|done].
    exfalso. apply (Qlt_not_le _ _ (Hn sp Hsp Hlt)), Hle.
  - destruct (decide _); [|by eexists].
    apply IH; [lia|exact Hn].
Qed.

(** X19: [cull_paths] returns, for every amount of fuel above some bound,
    when the paths align, the best scaled score is not negative and no more
    than half the ceiling on working paths reach it: each turn of the loop
    halves the gap of the threshold to 1, and every lower score is left
    behind after finitely many turns. *)
Theorem cull_paths_returns_without_ties graph paths sequence scoring_scheme
    expected best rest :
  cull_scored_paths graph paths sequence scoring_scheme
    = Ret (best :: rest) →
  (0 <= best.2)%Q →
  Z.of_nat (length (filter (λ sp : path * Q, (best.2 <= sp.2)%Q)
                      (best :: rest)))
    ≤ PROGRESSIVE_PATH_SEARCH_MAX_WORKING_PATHS settings `div` 2 →
  ∃ n, ∀ fuel, (n < fuel)%nat →
    ∃ res,
      cull_paths fuel graph paths sequence scoring_scheme expected = Ret res.
Proof.
  intros Hscored Hbest Hties.
  destruct (tightened_reaches_all best.2
              (PROGRESSIVE_PATH_SEARCH_SCORE_FRACTION settings)
              (best :: rest) Hbest) as [n Hn].
  exists n. intros fuel Hfuel. unfold cull_paths.
  rewrite Hscored, bind_Ret_l.
  destruct (decide _); [by eexists|].
  destruct (cull_threshold_loop_returns n fuel best.2 (best :: rest)
              (PROGRESSIVE_PATH_SEARCH_SCORE_FRACTION settings))
    as [surviving ->]; [done| |done|].
  - apply Hn. lia.
  - rewrite bind_Ret_l. destruct (decide _); by eexists.
Qed.
End CullTermination.

Lemma cull_paths_returns_without_ties_witness :
  ∃ n, ∀ fuel, (n < fuel)%nat →
    ∃ res,
      cull_paths (H:=junction_imports) fuel junction_graph
        [[1; 6; 7; 3]; [1; 6; 7; 4]; [1; 6; 7; 2]] [base_A] tt 90%Q = Ret res.
Proof.
  apply (cull_paths_returns_without_ties (H:=junction_imports) junction_graph
           [[1; 6; 7; 3]; [1; 6; 7; 4]; [1; 6; 7; 2]] [base_A] tt 90%Q
           ([6; 7; 3], 100%Q) [([6; 7; 4], 50%Q); ([6; 7; 2], 50%Q)]).
  - vm_compute. reflexivity.
  - vm_compute. discriminate.
  - vm_compute. discriminate.
Defined.
